(** * Open-addressing hash table with quadratic probing (Final/hash_table.h)

    A shallow embedding of [nwacc::hash_table<T, K>] and the properties of
    its probing, deletion and rehashing code.

    Conventions of the embedding
    - [std::vector<entry>] is a [list entry]; [array[i]] past the end is
      undefined behaviour in C++ and is the outcome [Undefined] here.
    - [std::size_t] positions and sizes are [nat]; the [int] arguments of
      [is_prime] and [next_prime] are [Z] ([%] on [int] is [Z.rem]).
      [is_prime] and [next_prime] compute on unbounded integers;
      [is_prime_int] is [is_prime] with the overflow of
      [counter * counter], and a statement on what the prime search
      returns for a given number carries the bound below which the two
      agree. Sizes are assumed to fit [std::size_t].
    - [rehash] calls [insert(std::move(entry.element))], with one argument
      where both overloads of [insert] take two, so the member does not
      instantiate as written. The model passes the entry's own key with
      the element. What is stated of a rehash beyond its capacity, its
      count and its tags depends on this reading.
    - [throw std::length_error] is the outcome [LengthError].
    - loops that have no a-priori bound take a [fuel] argument and yield
      [OutOfFuel] when it runs out.
    - the overloads of [contains], [remove] and [insert] get names of
      their own ([contains_key], [remove_key], [insert_move]).
    - [print], [operator<<], [operator[]] and [get_type] are left out:
      nothing below depends on them. *)

From Stdlib Require Import ZArith Znumtheory Lia List Bool.
From stdpp Require Import base decidable option list numbers.

(** ** Outcomes of a call *)

Inductive result (A : Type) : Type :=
| Ok (a : A)
| LengthError
| Undefined
| OutOfFuel.
Arguments Ok {A} a.
Arguments LengthError {A}.
Arguments Undefined {A}.
Arguments OutOfFuel {A}.

Definition bind {A B : Type} (m : result A) (f : A → result B) : result B :=
  match m with
  | Ok a => f a
  | LengthError => LengthError
  | Undefined => Undefined
  | OutOfFuel => OutOfFuel
  end.

Notation "'let*' x ':=' m 'in' k" := (bind m (fun x => k))
  (at level 10, x pattern, m at level 100, k at level 200).

(** ** Prime search: [is_prime], [next_prime] *)

Module Primes.
Local Open Scope Z_scope.

(** [for (auto counter = 3; counter * counter <= number; counter += 2)
      if (number % counter == 0) return false;
    return true;] *)
Fixpoint is_prime_loop (fuel : nat) (number counter : Z) : bool :=
  match fuel with
  | O => true
  | S fuel =>
      if counter * counter <=? number then
        if Z.rem number counter =? 0 then false
        else is_prime_loop fuel number (counter + 2)
      else true
  end.

(** The loop runs fewer than [number] times, so [Z.to_nat number] is
    fuel enough (lemma [is_prime_loop_fuel]). *)
Definition is_prime (number : Z) : bool :=
  if (number =? 2) || (number =? 3) then true
  else if (number =? 1) || (Z.rem number 2 =? 0) then false
  else is_prime_loop (Z.to_nat number) number 3.

(** [is_prime] with the range of [int]: the loop computes
    [counter * counter] in [int], and a product past [INT_MAX] is a signed
    overflow, which is undefined behaviour. Below 46339 * 46339 =
    2147302921 no product overflows and this is [is_prime] (lemma
    [is_prime_int_agrees]). *)
Definition int_max : Z := 2147483647.

Fixpoint is_prime_loop_int (fuel : nat) (number counter : Z) : result bool :=
  match fuel with
  | O => Ok true
  | S fuel =>
      if int_max <? counter * counter then Undefined
      else if counter * counter <=? number then
        if Z.rem number counter =? 0 then Ok false
        else is_prime_loop_int fuel number (counter + 2)
      else Ok true
  end.

Definition is_prime_int (number : Z) : result bool :=
  if (number =? 2) || (number =? 3) then Ok true
  else if (number =? 1) || (Z.rem number 2 =? 0) then Ok false
  else is_prime_loop_int (Z.to_nat number) number 3.

(** [while (!is_prime(number)) number += 2; return number;] *)
Fixpoint next_prime_loop (fuel : nat) (number : Z) : result Z :=
  match fuel with
  | O => OutOfFuel
  | S fuel =>
      if is_prime number then Ok number
      else next_prime_loop fuel (number + 2)
  end.

Definition next_prime (fuel : nat) (number : Z) : result Z :=
  let number := if Z.rem number 2 =? 0 then number + 1 else number in
  next_prime_loop fuel number.

(** Factorials, to show that the search of [next_prime] ends. *)
Fixpoint Zfact (n : nat) : Z :=
  match n with O => 1 | S n' => Z.of_nat n * Zfact n' end.

End Primes.
Export Primes.

(** ** The table *)

Inductive entry_type : Type := kActive | kEmpty | kDeleted.

Global Instance entry_type_eq_dec : EqDecision entry_type.
Proof. solve_decision. Defined.

(** The enumerators as integers, for [type == !kActive]. *)
Definition entry_type_to_int (t : entry_type) : Z :=
  match t with kActive => 0 | kEmpty => 1 | kDeleted => 2 end%Z.

(** C++ logical not on an integer. *)
Definition lnot (z : Z) : Z := if (z =? 0)%Z then 1%Z else 0%Z.

(** What the template asks of its parameters: [std::hash<T>], the implicit
    conversion that [find_position(key)] applies to a [K] argument (its
    only overload takes [const T &]), and value-initialisation [T{}]. *)
Class Hash (T : Type) := hash_object : T → nat.
Class Convertible (K T : Type) := convert : K → T.
Class ValueInit (T : Type) := value_init : T.

Section hash_table.
Context {T K : Type} `{EqDecision T} `{EqDecision K}.
Context `{Hash T} `{Convertible K T} `{ValueInit T} `{ValueInit K}.

Record entry : Type := Entry { element : T; key : K; type : entry_type }.

Global Instance entry_eq_dec : EqDecision entry.
Proof. solve_decision. Defined.

Record hash_table : Type := HashTable {
  array : list entry;
  current_size : nat
}.

Definition set_type (t : entry_type) (e : entry) : entry :=
  {| element := element e; key := key e; type := t |}.
Definition set_element (v : T) (e : entry) : entry :=
  {| element := v; key := key e; type := type e |}.

(** [entry(const T & e = T{}, const K & k = K{}, entry_type t = kEmpty)] *)
Definition entry_ctor (e : T) (k : K) (t : entry_type) : entry :=
  {| element := e; key := k; type := t |}.
Definition entry_default : entry := entry_ctor value_init value_init kEmpty.

(** [this->array[i]]: reading past the end is undefined. *)
Definition at_ (arr : list entry) (i : nat) : result entry :=
  match arr !! i with
  | Some e => Ok e
  | None => Undefined
  end.

(** [hash_object(value) % this->array.size()] *)
Definition hash (t : hash_table) (value : T) : result nat :=
  if decide (length (array t) = 0) then Undefined
  else Ok (hash_object value mod length (array t)).

Definition is_active (t : hash_table) (current_position : nat) : result bool :=
  let* e := at_ (array t) current_position in
  Ok (bool_decide (type e = kActive)).

(** One turn of the body of the [while] in [find_position]. *)
Definition probe_next (size current_position off_set : nat) : nat * nat :=
  let current_position := current_position + off_set in
  let off_set := off_set + 2 in
  let current_position :=
    if bool_decide (size ≤ current_position)
    then current_position - size else current_position in
  (current_position, off_set).

(** The loop condition: [type != kEmpty && element != value]. *)
Definition keep_probing (e : entry) (value : T) : bool :=
  bool_decide (type e ≠ kEmpty) && bool_decide (element e ≠ value).

Fixpoint find_position_loop (fuel : nat) (arr : list entry) (value : T)
    (current_position off_set : nat) : result nat :=
  match fuel with
  | O => OutOfFuel
  | S fuel =>
      let* e := at_ arr current_position in
      if keep_probing e value then
        let '(current_position, off_set) :=
          probe_next (length arr) current_position off_set in
        find_position_loop fuel arr value current_position off_set
      else Ok current_position
  end.

(** The offset grows by two each turn and only one [size] is taken off,
    so after at most [size + 1] turns the position is past the end:
    [size + 2] is fuel enough (lemma [find_position_fuel]). *)
Definition find_position (t : hash_table) (value : T) : result nat :=
  let* h := hash t value in
  find_position_loop (length (array t) + 2) (array t) value h 1.

(** The same loop, recording every index it examines. *)
Fixpoint probes_loop (fuel : nat) (arr : list entry) (value : T)
    (current_position off_set : nat) : list nat :=
  match fuel with
  | O => []
  | S fuel =>
      current_position ::
      match arr !! current_position with
      | None => []
      | Some e =>
          if keep_probing e value then
            let '(current_position, off_set) :=
              probe_next (length arr) current_position off_set in
            probes_loop fuel arr value current_position off_set
          else []
      end
  end.

Definition probes (t : hash_table) (value : T) : list nat :=
  match hash t value with
  | Ok h => probes_loop (length (array t) + 2) (array t) value h 1
  | _ => []
  end.

(** [contains(const T &)] and [contains(const K &)] *)
Definition contains (t : hash_table) (value : T) : result bool :=
  let* p := find_position t value in is_active t p.
Definition contains_key (t : hash_table) (k : K) : result bool :=
  let* p := find_position t (convert k) in is_active t p.

Definition make_empty (t : hash_table) : hash_table :=
  {| array := set_type kEmpty <$> array t; current_size := 0 |}.

(** [explicit hash_table(int size = 50) : array(next_prime(size))]:
    a negative [int] converted to [size_type] exceeds [max_size()]. *)
Definition hash_table_ctor (fuel : nat) (size : Z) : result hash_table :=
  let* n := next_prime fuel size in
  if (n <? 0)%Z then LengthError
  else Ok (make_empty {| array := replicate (Z.to_nat n) entry_default;
                         current_size := 0 |}).

(** [remove(const T &)] and [remove(const K &)] *)
Definition remove (t : hash_table) (value : T) : result (bool * hash_table) :=
  let* current_position := find_position t value in
  let* active := is_active t current_position in
  if negb active then Ok (false, t)
  else Ok (true, {| array := alter (set_type kDeleted) current_position (array t);
                    current_size := current_size t |}).
Definition remove_key (t : hash_table) (k : K) : result (bool * hash_table) :=
  remove t (convert k).

(** [get_key] returns the element, [get_value] the key; both throw when
    [array[current_position].type == !kActive]. *)
Definition not_found (e : entry) : bool :=
  (entry_type_to_int (type e) =? lnot (entry_type_to_int kActive))%Z.

Definition get_key (t : hash_table) (k : K) : result T :=
  let* current_position := find_position t (convert k) in
  let* e := at_ (array t) current_position in
  if not_found e then LengthError else Ok (element e).

Definition get_value (t : hash_table) (value : T) : result K :=
  let* current_position := find_position t value in
  let* e := at_ (array t) current_position in
  if not_found e then LengthError else Ok (key e).

(** *** [insert] and [rehash] *)

Section rehash.
(** [insert] for the nested calls. *)
Variable insert_rec : T → K → hash_table → result (bool * hash_table).

(** [for (auto & entry : old_array) if (entry.type == kActive) insert(...)].
    The source passes only [entry.element] to [insert], which takes a
    value and a key; the entry's own key is passed with it here. *)
Fixpoint rehash_loop (old_array : list entry) (t : hash_table)
    : result hash_table :=
  match old_array with
  | [] => Ok t
  | e :: old_array =>
      if bool_decide (type e = kActive) then
        let* (_, t) := insert_rec (element e) (key e) t in
        rehash_loop old_array t
      else rehash_loop old_array t
  end.

(** [array.resize(n)] keeps the first [n] entries and pads with
    [entry()]; then every [type] is set to [kEmpty]. [current_size] is
    left as it is. *)
Definition cleared (t : hash_table) (n : nat) : hash_table :=
  {| array := set_type kEmpty <$> resize n entry_default (array t);
     current_size := current_size t |}.

Definition rehash_with (fuel : nat) (t : hash_table) : result hash_table :=
  let old_array := array t in
  let* n := next_prime fuel (2 * Z.of_nat (length old_array)) in
  if (n <? 0)%Z then LengthError
  else rehash_loop old_array (cleared t (Z.to_nat n)).
End rehash.

(** The table after [array[p].element = value; array[p].key = key;
    array[p].type = kActive; ++current_size]. *)
Definition written (t : hash_table) (current_position : nat) (value : T) (k : K)
    : hash_table :=
  {| array := <[current_position := entry_ctor value k kActive]> (array t);
     current_size := current_size t + 1 |}.

(** [bool insert(const T & value, const K & key)]; [fuel] bounds the
    depth of nested rehashes and each prime search. *)
Fixpoint insert (fuel : nat) (t : hash_table) (value : T) (k : K)
    : result (bool * hash_table) :=
  match fuel with
  | O => OutOfFuel
  | S fuel =>
      let* current_position := find_position t (convert k) in
      let* active := is_active t current_position in
      let* e := at_ (array t) current_position in
      if active then
        if bool_decide (key e = k) then
          Ok (false, {| array := alter (set_element value) current_position (array t);
                        current_size := current_size t |})
        else Ok (false, t)
      else
        let t := written t current_position value k in
        if bool_decide (length (array t) / 2 < current_size t) then
          let* t := rehash_with (fun v k t => insert fuel t v k) fuel t in
          Ok (true, t)
        else Ok (true, t)
  end.

Definition rehash (fuel : nat) (t : hash_table) : result hash_table :=
  rehash_with (fun v k t => insert fuel t v k) fuel t.

(** [bool insert(T && value, K && key)]: the two assignments
    [array[p] = std::move(value); array[p] = std::move(key);] each build
    a whole entry from one argument through the converting constructor,
    so the slot ends as [entry(T(key), K{}, kEmpty)] before it is
    marked active. *)
Definition insert_move (fuel : nat) (t : hash_table) (value : T) (k : K)
    : result (bool * hash_table) :=
  let* current_position := find_position t (convert k) in
  let* active := is_active t current_position in
  let* e := at_ (array t) current_position in
  if active then
    if bool_decide (key e = k) then
      Ok (false, {| array := alter (set_element value) current_position (array t);
                    current_size := current_size t |})
    else Ok (false, t)
  else
    let arr := <[current_position := entry_ctor value value_init kEmpty]> (array t) in
    let arr := <[current_position := entry_ctor (convert k) value_init kEmpty]> arr in
    let arr := alter (set_type kActive) current_position arr in
    let t := {| array := arr; current_size := current_size t + 1 |} in
    if bool_decide (length (array t) / 2 < current_size t) then
      let* t := rehash fuel t in
      Ok (true, t)
    else Ok (true, t).

(** ** Notions used to state the properties *)

(** Slots that are not Empty, and how many there are. *)
Definition used (e : entry) : bool := bool_decide (type e ≠ kEmpty).
Definition occupied (arr : list entry) : nat :=
  length (filter (λ e, used e = true) arr).
Definition active_count (arr : list entry) : nat :=
  length (filter (λ e, type e = kActive) arr).

(** The state of the [while] of [find_position] after [n] turns. *)
Definition probe_state (size h n : nat) : nat * nat :=
  Nat.iter n (λ s, probe_next size s.1 s.2) (h, 1).

(** A prime capacity, [current_size] counts at least the used slots,
    and the load factor is at most one half. *)
Definition table_ok (t : hash_table) : Prop :=
  Z.prime (Z.of_nat (length (array t))) ∧
  occupied (array t) ≤ current_size t ∧
  current_size t ≤ length (array t) / 2.

(** An entry is stored when some slot holds it as Active. *)
Definition stored (t : hash_table) (value : T) (k : K) : Prop :=
  ∃ i, array t !! i = Some (entry_ctor value k kActive).

(** The tables a program can observe: a constructed table, and the
    table after any completed [make_empty], [insert] or [remove]. The
    inserts that [rehash] makes are inserts too; they start from the
    cleared table of [reachable_cleared]. *)
Inductive reachable : hash_table → Prop :=
| reachable_ctor fuel size t :
    hash_table_ctor fuel size = Ok t → reachable t
| reachable_make_empty t :
    reachable t → reachable (make_empty t)
| reachable_insert fuel t value k b t' :
    reachable t → insert fuel t value k = Ok (b, t') → reachable t'
| reachable_insert_move fuel t value k b t' :
    reachable t → insert_move fuel t value k = Ok (b, t') → reachable t'
| reachable_remove t value b t' :
    reachable t → remove t value = Ok (b, t') → reachable t'
| reachable_remove_key t k b t' :
    reachable t → remove_key t k = Ok (b, t') → reachable t'
| reachable_cleared fuel t value k current_position n :
    reachable t →
    find_position t (convert k) = Ok current_position →
    is_active t current_position = Ok false →
    length (array t) / 2 < current_size t + 1 →
    next_prime fuel (2 * Z.of_nat (length (array t))) = Ok n →
    reachable (cleared (written t current_position value k) (Z.to_nat n)).

End hash_table.

(** ** Tables used as sets: every value inserted under a key that converts to it,
       within the load bound *)

Section hash_table_sets.
Context {T K : Type} `{EqDecision T} `{EqDecision K}.
Context `{Hash T} `{Convertible K T} `{ValueInit T} `{ValueInit K}.

(** Every Active slot holds a value and a key that converts to it. *)
Definition setlike (t : hash_table (T:=T) (K:=K)) : Prop :=
  ∀ i e, array t !! i = Some e → type e = kActive → element e = convert (key e).

(** Every slot in use is where the probe for its own element stops. *)
Definition first_stop (t : hash_table (T:=T) (K:=K)) : Prop :=
  ∀ i e, array t !! i = Some e → type e ≠ kEmpty → find_position t (element e) = Ok i.

Definition well_probed (t : hash_table (T:=T) (K:=K)) : Prop :=
  setlike t ∧ first_stop t.

(** No two Active entries of a sequence hold the same element. *)
Definition distinct_active (arr : list (entry (T:=T) (K:=K))) : Prop :=
  ∀ i j ei ej, arr !! i = Some ei → arr !! j = Some ej →
    type ei = kActive → type ej = kActive → element ei = element ej → i = j.

(** What one set-like [insert(value, key)] does to the stored pairs:
    it keeps them, adds at most its own pair, and stores its pair unless
    the value is already there under another key. *)
Definition insert_set_post (t : hash_table (T:=T) (K:=K)) (value : T) (k : K)
    (t' : hash_table (T:=T) (K:=K)) : Prop :=
  well_probed t' ∧
  (∀ x k0, stored t x k0 → stored t' x k0) ∧
  (∀ x k0, stored t' x k0 → stored t x k0 ∨ (x = value ∧ k0 = k)) ∧
  (stored t' value k ∨ ∃ k', k' ≠ k ∧ stored t value k').

(** The tables of a program that constructs a table and then only calls
    [make_empty], [remove] and the [const &] [insert], each time with a
    key that converts to the value and on a table that has room for one
    more entry within the load bound, so that no call reaches [rehash].
    The rvalue overload of [insert] is not among the calls. *)
Inductive reachable_set : hash_table (T:=T) (K:=K) → Prop :=
| reachable_set_ctor fuel size t :
    hash_table_ctor fuel size = Ok t → reachable_set t
| reachable_set_make_empty t :
    reachable_set t → reachable_set (make_empty t)
| reachable_set_insert fuel t value k b t' :
    reachable_set t → convert k = value →
    current_size t + 1 ≤ length (array t) / 2 →
    insert fuel t value k = Ok (b, t') → reachable_set t'
| reachable_set_remove t value b t' :
    reachable_set t → remove t value = Ok (b, t') → reachable_set t'
| reachable_set_remove_key t k b t' :
    reachable_set t → remove_key t k = Ok (b, t') → reachable_set t'.

End hash_table_sets.

(** ** The driver: [print_random_string] *)

From Stdlib Require Ascii.

Section driver.
Import Ascii.

Definition alphabet_length : nat := 26.
Definition rand_string_size : nat := 3.

Definition alphabet : list ascii :=
  ["a"; "b"; "c"; "d"; "e"; "f"; "g"; "h"; "i"; "j"; "k"; "l"; "m"; "n";
   "o"; "p"; "q"; "r"; "s"; "t"; "u"; "v"; "w"; "x"; "y"; "z"]%char.

(** [rand()]: the value of its n-th call, a non-negative [int]. *)
Variable rand : nat → nat.

(** [for (auto i = 0; i <= rand_string_size; i++)
      new_string += new_string + alphabet[rand() % alphabet_length];]
    with the turns that are left and the calls of [rand] made so far. *)
Fixpoint print_random_string_loop (turns calls : nat) (new_string : list ascii)
    : result (list ascii * nat) :=
  match turns with
  | O => Ok (new_string, calls)
  | S turns =>
      match alphabet !! (rand calls mod alphabet_length) with
      | None => Undefined
      | Some c =>
          print_random_string_loop turns (S calls) (new_string ++ (new_string ++ [c]))
      end
  end.

Definition print_random_string (calls : nat) : result (list ascii * nat) :=
  print_random_string_loop (rand_string_size + 1) calls [].
End driver.

(** ** An instance: [hash_table<long, unsigned>] *)

(** [std::hash<long>] is the identity into [size_t]. *)
#[global] Instance long_hash : Hash Z := λ z, Z.to_nat (z mod 2 ^ 64).
#[global] Instance unsigned_to_long : Convertible nat Z := Z.of_nat.
#[global] Instance long_init : ValueInit Z := 0%Z.
#[global] Instance unsigned_init : ValueInit nat := 0.

Definition long_table : Type := hash_table (T:=Z) (K:=nat).

(** The table of a call sequence that returns; the empty record otherwise. *)
Definition table_of (r : result long_table) : long_table :=
  match r with Ok t => t | _ => HashTable [] 0 end.

(** [insert] one pair after the other. *)
Definition inserts (fuel : nat) (l : list (Z * nat)) (t : long_table) : result long_table :=
  foldl (λ r p, let* t := r in let* (_, t) := insert fuel t p.1 p.2 in Ok t) (Ok t) l.

(** [hash_table<long, unsigned> t(10);] The inserts below pass lvalues,
    [long v; unsigned k; t.insert(v, k);], and so take the [const &]
    overload. *)
Definition table_10 : long_table :=
  Eval vm_compute in table_of (hash_table_ctor 10 10).

(** [insert] of the pair (7, 7), and then [remove] of the value 7. *)
Definition table_7 : long_table :=
  Eval vm_compute in table_of (inserts 10 [(7%Z, 7)] table_10).
Definition table_7_removed : long_table :=
  Eval vm_compute in table_of (let* (_, t) := remove table_7 7%Z in Ok t).

(** Five pairs in a table of capacity 11, and a sixth that makes it rehash. *)
Definition table_5 : long_table :=
  Eval vm_compute in
    table_of (inserts 10 [(24%Z, 1); (9%Z, 24); (100%Z, 3); (101%Z, 4); (102%Z, 5)] table_10).
Definition table_6 : long_table :=
  Eval vm_compute in table_of (inserts 10 [(103%Z, 6)] table_5).

(** A value whose key has the same home slot in capacity 11 but not in a
    larger one, with four more pairs, and a sixth pair that rehashes. *)
Definition table_12 : long_table :=
  Eval vm_compute in
    table_of (inserts 10 [(12%Z, 1); (3%Z, 3); (4%Z, 4); (5%Z, 5); (6%Z, 6)] table_10).
Definition table_12_rehashed : long_table :=
  Eval vm_compute in table_of (inserts 10 [(7%Z, 7)] table_12).

(** Six values inserted under their own keys. *)
Definition table_own_keys : long_table :=
  Eval vm_compute in
    table_of (inserts 10 [(1%Z, 1); (2%Z, 2); (3%Z, 3); (4%Z, 4); (5%Z, 5); (6%Z, 6)] table_10).

(** [hash_table<long, unsigned> t(2);] and two inserts, the second of
    which rehashes. *)
Definition table_2 : long_table :=
  Eval vm_compute in table_of (hash_table_ctor 10 2).
Definition table_2_one : long_table :=
  Eval vm_compute in table_of (inserts 10 [(7%Z, 7)] table_2).
Definition table_2_two : long_table :=
  Eval vm_compute in table_of (inserts 10 [(5%Z, 5)] table_2_one).

(** [insert] of the value 5 under the key 1, and the same [insert] once
    more. *)
Definition table_5_1 : long_table :=
  Eval vm_compute in table_of (inserts 10 [(5%Z, 1)] table_10).
Definition table_5_1_twice : long_table :=
  Eval vm_compute in table_of (inserts 10 [(5%Z, 1)] table_5_1).

(** Five values inserted under their own keys: no rehash yet. *)
Definition table_own_5 : long_table :=
  Eval vm_compute in
    table_of (inserts 10 [(1%Z, 1); (2%Z, 2); (3%Z, 3); (4%Z, 4); (5%Z, 5)] table_10).

(** The value 2 removed from the five, and a [rehash] of what is left. *)
Definition table_own_5_removed : long_table :=
  Eval vm_compute in table_of (let* (_, t) := remove table_own_5 2%Z in Ok t).
Definition table_own_5_rehashed : long_table :=
  Eval vm_compute in table_of (rehash 10 table_own_5_removed).

(** The pair (5, 5) inserted after the pair (7, 7). *)
Definition table_7_5 : long_table :=
  Eval vm_compute in table_of (inserts 10 [(5%Z, 5)] table_7).

(** * Properties *)

(** ** The prime search *)

Section prime_facts.
Local Open Scope Z_scope.

Lemma is_prime_loop_true fuel : ∀ number counter,
  is_prime_loop fuel number counter = true →
  1 < counter → number ≤ 2 * Z.of_nat fuel + counter →
  ∀ i : nat, (counter + 2 * Z.of_nat i) * (counter + 2 * Z.of_nat i) ≤ number →
    ¬ (counter + 2 * Z.of_nat i | number).
Proof.
  induction fuel as [|fuel IH]; intros number counter Hrun Hpos Hfuel i Hsq.
  - pose proof (Nat2Z.is_nonneg i). nia.
  - cbn [is_prime_loop] in Hrun.
    destruct (Z.leb_spec (counter * counter) number) as [Hle|Hgt]; [|nia].
    destruct (Z.eqb_spec (Z.rem number counter) 0) as [|Hrem]; [done|].
    destruct i as [|i].
    + rewrite Z.add_0_r. intros Hdiv. apply Hrem, Z.rem_divide; [lia|done].
    + replace (counter + 2 * Z.of_nat (S i)) with (counter + 2 + 2 * Z.of_nat i) in * by lia.
      apply IH; [done|lia|lia|done].
Qed.

Lemma is_prime_loop_false fuel : ∀ number counter,
  is_prime_loop fuel number counter = false → 0 < counter →
  ∃ d, counter ≤ d ∧ d * d ≤ number ∧ (d | number).
Proof.
  induction fuel as [|fuel IH]; intros number counter Hrun Hpos; [done|].
  cbn [is_prime_loop] in Hrun.
  destruct (Z.leb_spec (counter * counter) number) as [Hle|Hgt]; [|done].
  destruct (Z.eqb_spec (Z.rem number counter) 0) as [Hrem|Hrem].
  - exists counter. split_and!; [lia|done|]. apply Z.rem_divide; [lia|done].
  - destruct (IH _ _ Hrun) as (d & ? & ? & ?); [lia|]. exists d. split_and!; [lia|done..].
Qed.

Lemma is_prime_composite number :
  1 < number → is_prime number = false → ∃ d, 1 < d < number ∧ (d | number).
Proof.
  intros Hgt. unfold is_prime.
  destruct (Z.eqb_spec number 2); [done|]. destruct (Z.eqb_spec number 3); [done|].
  destruct (Z.eqb_spec number 1); [lia|]. cbn [orb].
  destruct (Z.eqb_spec (Z.rem number 2) 0) as [Hrem|Hrem]; intros Hrun.
  - exists 2. split; [lia|]. apply Z.rem_divide; [lia|done].
  - apply is_prime_loop_false in Hrun as (d & ? & ? & ?); [|lia].
    exists d. split; [nia|done].
Qed.

Lemma is_prime_sound number : 0 ≤ number → is_prime number = true → Z.prime number.
Proof.
  intros Hnn. unfold is_prime.
  destruct (Z.eqb_spec number 2) as [->|]; [intros _; apply Z.prime_2|].
  destruct (Z.eqb_spec number 3) as [->|]; [intros _; apply Z.prime_3|].
  destruct (Z.eqb_spec number 1); [done|]. cbn [orb].
  destruct (Z.eqb_spec (Z.rem number 2) 0) as [Hrem|Hrem]; [done|]. intros Hrun.
  assert (Hodd : ¬ (2 | number)) by (intros ?; apply Hrem, Z.rem_divide; [lia|done]).
  assert (4 < number).
  { destruct (decide (number = 0)) as [->|]; [by destruct Hodd; exists 0|].
    destruct (decide (number = 4)) as [->|]; [by destruct Hodd; exists 2|]. lia. }
  split; [lia|]. intros m Hm [q Hq].
  (* the smaller of the two cofactors is odd, at least 3, and its square
     is at most [number] *)
  assert (∃ d e, 1 < d ∧ d * d ≤ number ∧ number = e * d) as (d & e & Hd1 & Hd2 & Hd3).
  { destruct (Z.le_gt_cases m q); [exists m, q|exists q, m]; nia. }
  assert (d ≠ 2) by (intros ->; apply Hodd; by exists e).
  assert (d mod 2 = 1) as Hmod.
  { destruct (Z.mod_pos_bound d 2) as [? ?]; [lia|].
    destruct (decide (d mod 2 = 0)) as [Hev|]; [|lia].
    destruct Hodd. apply Z.mod_divide in Hev as [h ->]; [|lia]. exists (e * h). lia. }
  pose proof (Z.div_mod d 2 ltac:(lia)) as Hdm.
  assert (∃ i : nat, d = 3 + 2 * Z.of_nat i) as [i ->].
  { exists (Z.to_nat (d / 2 - 1)). rewrite Z2Nat.id; lia. }
  apply (is_prime_loop_true _ _ _ Hrun ltac:(lia) ltac:(lia) i); [done|by exists e].
Qed.

Lemma is_prime_complete number : Z.prime number → is_prime number = true.
Proof.
  intros [Hgt Hp]. destruct (is_prime number) eqn:Hrun; [done|].
  apply is_prime_composite in Hrun as (d & Hd & Hdiv); [|done]. by destruct (Hp d).
Qed.

Lemma is_prime_correct number : 0 ≤ number → is_prime number = true ↔ Z.prime number.
Proof. split; [by apply is_prime_sound|apply is_prime_complete]. Qed.

(** [is_prime] gives its loop fuel enough: more changes nothing. *)
Lemma is_prime_loop_mono fuel : ∀ fuel' number counter,
  1 < counter → number ≤ 2 * Z.of_nat fuel + counter → (fuel ≤ fuel')%nat →
  is_prime_loop fuel' number counter = is_prime_loop fuel number counter.
Proof.
  induction fuel as [|fuel IH]; intros fuel' number counter Hc Hn Hle.
  - destruct fuel' as [|fuel']; [done|]. cbn [is_prime_loop].
    destruct (Z.leb_spec (counter * counter) number); [nia|done].
  - destruct fuel' as [|fuel']; [lia|]. cbn [is_prime_loop].
    destruct (counter * counter <=? number); [|done].
    destruct (Z.rem number counter =? 0); [done|]. apply IH; lia.
Qed.

Lemma is_prime_loop_fuel fuel number :
  (Z.to_nat number ≤ fuel)%nat →
  is_prime_loop fuel number 3 = is_prime_loop (Z.to_nat number) number 3.
Proof. intros Hle. apply is_prime_loop_mono; lia. Qed.

(** *** The search of [next_prime] *)

Lemma next_prime_loop_spec fuel : ∀ number p,
  next_prime_loop fuel number = Ok p ↔
  ∃ i : nat, (i < fuel)%nat ∧ p = number + 2 * Z.of_nat i ∧ is_prime p = true ∧
    ∀ j : nat, (j < i)%nat → is_prime (number + 2 * Z.of_nat j) = false.
Proof.
  induction fuel as [|fuel IH]; intros number p; cbn [next_prime_loop].
  - split; [done|]. intros (i & ? & _). lia.
  - destruct (is_prime number) eqn:Hp.
    + split.
      * intros [= <-]. exists 0%nat. split_and!; [lia|lia|done|]. intros; lia.
      * intros (i & Hi & -> & Hpi & Hmin). destruct i as [|i]; [f_equal; lia|].
        specialize (Hmin 0%nat ltac:(lia)). rewrite Z.add_0_r in Hmin. congruence.
    + rewrite IH. split.
      * intros (i & Hi & -> & Hpi & Hmin). exists (S i). split_and!; [lia|lia|done|].
        intros [|j] Hj; [by rewrite Z.add_0_r|].
        replace (number + 2 * Z.of_nat (S j)) with (number + 2 + 2 * Z.of_nat j) by lia.
        apply Hmin. lia.
      * intros (i & Hi & -> & Hpi & Hmin). destruct i as [|i].
        { rewrite Z.add_0_r in Hpi. congruence. }
        exists i. split_and!; [lia|lia|done|]. intros j Hj.
        replace (number + 2 + 2 * Z.of_nat j) with (number + 2 * Z.of_nat (S j)) by lia.
        apply Hmin. lia.
Qed.

Lemma next_prime_loop_mono fuel fuel' number p :
  (fuel ≤ fuel')%nat → next_prime_loop fuel number = Ok p →
  next_prime_loop fuel' number = Ok p.
Proof.
  rewrite !next_prime_loop_spec. intros Hle (i & ? & ?). exists i. split; [lia|done].
Qed.

Lemma next_prime_loop_terminates (i : nat) : ∀ number,
  is_prime (number + 2 * Z.of_nat i) = true →
  ∃ p, next_prime_loop (S i) number = Ok p.
Proof.
  induction i as [|i IH]; intros number Hp; cbn [next_prime_loop].
  - rewrite Z.add_0_r in Hp. rewrite Hp. by eexists.
  - destruct (is_prime number); [by eexists|]. apply IH.
    by replace (number + 2 + 2 * Z.of_nat i) with (number + 2 * Z.of_nat (S i)) by lia.
Qed.

(** *** There is always a larger prime *)

Lemma prime_divisor (n : nat) : ∀ m, 1 < m → m ≤ Z.of_nat n → ∃ p, Z.prime p ∧ (p | m).
Proof.
  induction n as [|n IH]; intros m Hgt Hle; [lia|].
  destruct (is_prime m) eqn:Hp.
  - exists m. split; [apply is_prime_sound; [lia|done]|done].
  - apply is_prime_composite in Hp as (d & Hd & Hdiv); [|done].
    destruct (IH d) as (p & Hprime & Hpd); [lia..|].
    exists p. split; [done|]. by etrans.
Qed.

Lemma Zfact_pos n : 0 < Zfact n.
Proof. induction n as [|n IH]; cbn [Zfact]; lia. Qed.

Lemma Zfact_divide n : ∀ d, 1 ≤ d ≤ Z.of_nat n → (d | Zfact n).
Proof.
  induction n as [|n IH]; intros d Hd; [lia|]. cbn [Zfact].
  destruct (decide (d = Z.of_nat (S n))) as [->|].
  - apply Z.divide_factor_l.
  - apply Z.divide_mul_r, IH. lia.
Qed.

Lemma prime_above (n : Z) : ∃ p, Z.prime p ∧ n < p.
Proof.
  pose proof (Zfact_pos (Z.to_nat n)) as Hpos.
  destruct (prime_divisor (Z.to_nat (Zfact (Z.to_nat n) + 1)) (Zfact (Z.to_nat n) + 1))
    as (p & Hp & Hdiv); [lia..|].
  exists p. split; [done|]. destruct (Z.lt_ge_cases n p) as [|Hle]; [done|].
  pose proof (Z.prime_ge_2 _ Hp).
  assert (p | 1) as Hone.
  { apply (Z.divide_add_cancel_r p (Zfact (Z.to_nat n)) 1); [|done].
    apply Zfact_divide. lia. }
  apply Z.divide_1_r_nonneg in Hone; lia.
Qed.

Lemma next_prime_Ok fuel x n :
  next_prime fuel x = Ok n → is_prime n = true ∧ x ≤ n ∧ ¬ (2 | n).
Proof.
  unfold next_prime. intros (i & _ & -> & Hp & _)%next_prime_loop_spec.
  split; [done|]. destruct (Z.eqb_spec (Z.rem x 2) 0) as [Hrem|Hrem].
  - apply Z.rem_divide in Hrem as [q ->]; [|lia]. split; [lia|]. intros [q' Hq']. lia.
  - split; [lia|]. intros [q' Hq']. apply Hrem, Z.rem_divide; [lia|].
    exists (q' - Z.of_nat i). lia.
Qed.

Lemma next_prime_mono fuel fuel' x n :
  (fuel ≤ fuel')%nat → next_prime fuel x = Ok n → next_prime fuel' x = Ok n.
Proof. unfold next_prime. apply next_prime_loop_mono. Qed.

Lemma odd_mod_2 a : ¬ (2 | a) → a mod 2 = 1.
Proof.
  intros Hodd. destruct (Z.mod_pos_bound a 2) as [? ?]; [lia|].
  destruct (decide (a mod 2 = 0)) as [Hev|]; [|lia].
  destruct Hodd. by apply Z.mod_divide in Hev.
Qed.

Lemma next_prime_least fuel x n q :
  next_prime fuel x = Ok n → Z.prime q → x ≤ q → ¬ (2 | q) → n ≤ q.
Proof.
  unfold next_prime. intros (i & _ & -> & _ & Hmin)%next_prime_loop_spec Hq Hle Hodd.
  set (x' := if Z.rem x 2 =? 0 then x + 1 else x) in *.
  destruct (Z.le_gt_cases (x' + 2 * Z.of_nat i) q) as [|Hlt]; [done|].
  assert (¬ (2 | x') ∧ x' ≤ q) as [Hodd' Hle'].
  { unfold x'. destruct (Z.eqb_spec (Z.rem x 2) 0) as [Hrem|Hrem].
    - apply Z.rem_divide in Hrem as [h ->]; [|lia]. split; [intros [h' ?]; lia|].
      destruct (decide (q = h * 2)) as [->|]; [|lia]. destruct Hodd. by exists h.
    - split; [|done]. intros ?. apply Hrem, Z.rem_divide; [lia|done]. }
  apply odd_mod_2 in Hodd, Hodd'.
  pose proof (Z.div_mod x' 2 ltac:(lia)). pose proof (Z.div_mod q 2 ltac:(lia)).
  specialize (Hmin (Z.to_nat (q / 2 - x' / 2)) ltac:(lia)).
  replace (x' + 2 * Z.of_nat (Z.to_nat (q / 2 - x' / 2))) with q in Hmin by lia.
  apply is_prime_complete in Hq. congruence.
Qed.

Lemma next_prime_terminates x : ∃ fuel n, next_prime fuel x = Ok n.
Proof.
  destruct (prime_above (Z.abs x + 2)) as (p & Hp & Hgt).
  set (x' := if Z.rem x 2 =? 0 then x + 1 else x).
  assert (¬ (2 | x')) as Hodd.
  { unfold x'. destruct (Z.eqb_spec (Z.rem x 2) 0) as [Hrem|Hrem].
    - apply Z.rem_divide in Hrem as [q ->]; [|lia]. intros [q' Hq']. lia.
    - intros ?. apply Hrem, Z.rem_divide; [lia|done]. }
  assert (x' ≤ x + 1) by (unfold x'; destruct (Z.rem x 2 =? 0); lia).
  assert (¬ (2 | p)) as Hpodd by (apply Hp; lia).
  apply odd_mod_2 in Hodd, Hpodd.
  pose proof (Z.div_mod x' 2 ltac:(lia)). pose proof (Z.div_mod p 2 ltac:(lia)).
  destruct (next_prime_loop_terminates (Z.to_nat (p / 2 - x' / 2)) x') as [n Hn].
  - replace (x' + 2 * Z.of_nat (Z.to_nat (p / 2 - x' / 2))) with p by lia.
    by apply is_prime_complete.
  - by exists (S (Z.to_nat (p / 2 - x' / 2))), n.
Qed.

(** *** The range of [int] *)

(** Below 46339 * 46339 the loop of [is_prime] stops before its counter
    passes 46339, and no product [counter * counter] is past [INT_MAX]. *)
Lemma is_prime_loop_int_agrees fuel : ∀ number counter,
  number < 2147302921 → 0 ≤ counter ≤ 46340 →
  is_prime_loop_int fuel number counter = Ok (is_prime_loop fuel number counter).
Proof.
  induction fuel as [|fuel IH]; intros number counter Hn Hc; [done|].
  cbn [is_prime_loop_int is_prime_loop]. unfold int_max.
  destruct (Z.ltb_spec 2147483647 (counter * counter)); [nia|].
  destruct (Z.leb_spec (counter * counter) number); [|done].
  destruct (Z.rem number counter =? 0); [done|]. apply IH; [done|nia].
Qed.

Lemma is_prime_int_agrees number :
  number < 2147302921 → is_prime_int number = Ok (is_prime number).
Proof.
  intros Hn. unfold is_prime_int, is_prime.
  destruct ((number =? 2) || (number =? 3)); [done|].
  destruct ((number =? 1) || (Z.rem number 2 =? 0)); [done|].
  apply is_prime_loop_int_agrees; [done|lia].
Qed.

(** The loop needs no more fuel than there are odd numbers up to the
    square root. *)
Lemma is_prime_loop_short fuel : ∀ fuel' number counter,
  0 < counter → number < (counter + 2 * Z.of_nat fuel) * (counter + 2 * Z.of_nat fuel) →
  (fuel ≤ fuel')%nat →
  is_prime_loop fuel' number counter = is_prime_loop fuel number counter.
Proof.
  induction fuel as [|fuel IH]; intros fuel' number counter Hc Hn Hle.
  - destruct fuel' as [|fuel']; [done|]. cbn [is_prime_loop].
    destruct (Z.leb_spec (counter * counter) number); [nia|done].
  - destruct fuel' as [|fuel']; [lia|]. cbn [is_prime_loop].
    destruct (counter * counter <=? number); [|done].
    destruct (Z.rem number counter =? 0); [done|]. apply IH; [lia| |lia].
    replace (counter + 2 + 2 * Z.of_nat fuel) with (counter + 2 * Z.of_nat (S fuel)) by lia.
    done.
Qed.

(** The largest prime below 46339 * 46339. *)
Lemma prime_2147302891 : Z.prime 2147302891.
Proof.
  apply is_prime_sound; [lia|]. unfold is_prime.
  destruct (Z.eqb_spec 2147302891 2); [lia|]. destruct (Z.eqb_spec 2147302891 3); [lia|].
  destruct (Z.eqb_spec 2147302891 1); [lia|]. cbn [orb].
  destruct (Z.eqb_spec (Z.rem 2147302891 2) 0) as [Hrem|_]; [by vm_compute in Hrem|].
  rewrite (is_prime_loop_short (Z.to_nat 23170)); [by vm_compute|lia|lia|lia].
Qed.

(** The numbers that [next_prime] tests lie between its argument and
    its result. *)
Lemma next_prime_below fuel x n :
  2 ≤ x ≤ 2147302891 → next_prime fuel x = Ok n → n ≤ 2147302891.
Proof.
  intros Hx Hn. eapply next_prime_least; [done|apply prime_2147302891|lia|].
  intros [q Hq]. lia.
Qed.

(** From 46339 * 46339 on, a number without a small divisor takes the
    loop to the counter 46341, whose square is past [INT_MAX]. *)
Lemma is_prime_loop_int_overflow fuel : ∀ number counter,
  Z.prime number → 2147302921 ≤ number ≤ int_max →
  (∃ h, counter = 2 * h + 1) → 3 ≤ counter ≤ 46341 →
  46341 < counter + 2 * Z.of_nat fuel →
  is_prime_loop_int fuel number counter = Undefined.
Proof.
  unfold int_max.
  induction fuel as [|fuel IH]; intros number counter Hp Hn [h ->] Hc Hfuel; [lia|].
  cbn [is_prime_loop_int]. unfold int_max.
  destruct (Z.ltb_spec 2147483647 ((2 * h + 1) * (2 * h + 1))); [done|].
  assert (h ≤ 23169) by nia.
  destruct (Z.leb_spec ((2 * h + 1) * (2 * h + 1)) number); [|nia].
  destruct (Z.eqb_spec (Z.rem number (2 * h + 1)) 0) as [Hrem|_].
  - apply Z.rem_divide in Hrem; [|lia].
    apply (Z.divide_prime_r _ _ Hp) in Hrem. lia.
  - apply IH; [done|done|by exists (h + 1); lia|lia|lia].
Qed.

Lemma prime_2147483647 : Z.prime 2147483647.
Proof.
  apply is_prime_sound; [lia|]. unfold is_prime.
  destruct (Z.eqb_spec 2147483647 2); [lia|]. destruct (Z.eqb_spec 2147483647 3); [lia|].
  destruct (Z.eqb_spec 2147483647 1); [lia|]. cbn [orb].
  destruct (Z.eqb_spec (Z.rem 2147483647 2) 0) as [Hrem|_]; [by vm_compute in Hrem|].
  rewrite (is_prime_loop_short (Z.to_nat 23170)); [by vm_compute|lia|lia|lia].
Qed.

End prime_facts.

Section hash_table_facts.
Context {T K : Type} `{EqDecision T} `{EqDecision K}.
Context `{Hash T} `{Convertible K T} `{ValueInit T} `{ValueInit K}.

Implicit Types (t : hash_table (T:=T) (K:=K)) (arr : list (entry (T:=T) (K:=K))).
Implicit Types (e : entry (T:=T) (K:=K)) (value x : T).


(** *** Reading a slot *)

Lemma at_Ok arr i e : at_ arr i = Ok e ↔ arr !! i = Some e.
Proof. unfold at_. destruct (arr !! i); split; congruence. Qed.

Lemma at_lt arr i e : at_ arr i = Ok e → i < length arr.
Proof. rewrite at_Ok. apply lookup_lt_Some. Qed.

Lemma keep_probing_false e x :
  keep_probing e x = false ↔ type e = kEmpty ∨ element e = x.
Proof.
  unfold keep_probing. rewrite andb_false_iff, !bool_decide_eq_false.
  split; (intros [?|?]; [left|right]); try done.
  - by destruct (decide (type e = kEmpty)).
  - by destruct (decide (element e = x)).
  - by intros ?.
  - by intros ?.
Qed.

Lemma keep_probing_true e x :
  keep_probing e x = true ↔ type e ≠ kEmpty ∧ element e ≠ x.
Proof. unfold keep_probing. by rewrite andb_true_iff, !bool_decide_eq_true. Qed.

(** *** The loop of [find_position] and the indices it examines *)

Lemma find_position_loop_probes fuel arr x : ∀ pos off i,
  find_position_loop fuel arr x pos off = Ok i →
  ∃ l e, probes_loop fuel arr x pos off = l ++ [i] ∧
    arr !! i = Some e ∧ keep_probing e x = false ∧
    Forall (λ j, ∃ e', arr !! j = Some e' ∧ keep_probing e' x = true) l.
Proof.
  induction fuel as [|fuel IH]; intros pos off i; cbn [find_position_loop probes_loop]; [done|].
  unfold at_. destruct (arr !! pos) as [e|] eqn:Hpos; cbn [bind]; [|done].
  destruct (keep_probing e x) eqn:Hkeep.
  - destruct (probe_next (length arr) pos off) as [pos' off']. intros Hrun.
    destruct (IH _ _ _ Hrun) as (l & e' & -> & ? & ? & ?).
    exists (pos :: l), e'. split_and!; [done..|]. constructor; [by exists e|done].
  - intros [= <-]. exists [], e. by split_and!.
Qed.

(** The loop is given [length arr + 2] turns; it never uses them up. *)
Lemma find_position_loop_fuel fuel arr x : ∀ pos off,
  off ≤ pos + length arr + 2 → 1 ≤ fuel →
  (pos < length arr → 2 * length arr + 5 ≤ 2 * fuel + off) →
  find_position_loop fuel arr x pos off ≠ OutOfFuel.
Proof.
  induction fuel as [|fuel IH]; intros pos off Hoff Hfuel Hbound; [lia|].
  cbn [find_position_loop]. unfold at_.
  destruct (arr !! pos) as [e|] eqn:Hpos; cbn [bind]; [|done].
  apply lookup_lt_Some in Hpos. specialize (Hbound Hpos).
  destruct (keep_probing e x); [|done]. unfold probe_next.
  case_bool_decide; apply IH; lia.
Qed.

Lemma find_position_fuel t x : find_position t x ≠ OutOfFuel.
Proof.
  unfold find_position, hash. case_decide; [done|]. cbn [bind].
  apply find_position_loop_fuel; lia.
Qed.

(** More fuel does not change an answer. *)
Lemma find_position_loop_mono fuel arr x : ∀ fuel' pos off r,
  fuel ≤ fuel' → find_position_loop fuel arr x pos off = r → r ≠ OutOfFuel →
  find_position_loop fuel' arr x pos off = r.
Proof.
  induction fuel as [|fuel IH]; intros fuel' pos off r Hle Hrun Hr; [by subst|].
  destruct fuel' as [|fuel']; [lia|]. cbn [find_position_loop] in *.
  destruct (at_ arr pos) as [e| | |]; cbn [bind] in *; try done.
  destruct (keep_probing e x); [|done].
  destruct (probe_next (length arr) pos off). apply IH; [lia|done..].
Qed.

Lemma find_position_Ok t x i :
  find_position t x = Ok i →
  ∃ l e, probes t x = l ++ [i] ∧ array t !! i = Some e ∧ keep_probing e x = false ∧
    Forall (λ j, ∃ e', array t !! j = Some e' ∧ keep_probing e' x = true) l.
Proof.
  unfold find_position, probes. destruct (hash t x) as [h| | |]; cbn [bind]; [|done..].
  apply find_position_loop_probes.
Qed.

Lemma find_position_lt t x i : find_position t x = Ok i → i < length (array t).
Proof.
  intros (l & e & _ & Hi & _)%find_position_Ok. by apply lookup_lt_Some in Hi.
Qed.

(** *** Where the k-th probe lands *)

Lemma probes_loop_lookup fuel arr x : ∀ pos off k i,
  probes_loop fuel arr x pos off !! k = Some i →
  i = (Nat.iter k (λ s, probe_next (length arr) s.1 s.2) (pos, off)).1.
Proof.
  induction fuel as [|fuel IH]; intros pos off k i; cbn [probes_loop]; [done|].
  destruct k as [|k]; [by intros [= <-]|]. cbn [lookup list_lookup].
  change ((?a :: ?l) !! S k) with (l !! k).
  destruct (arr !! pos) as [e|]; [|done].
  destruct (keep_probing e x); [|done].
  destruct (probe_next (length arr) pos off) as [pos' off'] eqn:Hnext.
  intros ->%IH. rewrite Nat.iter_succ_r. cbn [fst snd]. by rewrite Hnext.
Qed.

Lemma probe_state_square size h k :
  0 < size → 2 * k ≤ size + 1 →
  probe_state size (h mod size) k = ((h + k * k) mod size, 2 * k + 1).
Proof.
  intros Hsize. induction k as [|k IH]; intros Hk.
  - cbn. by rewrite Nat.add_0_r.
  - unfold probe_state in *. rewrite Nat.iter_succ, IH by lia. cbn [fst snd].
    unfold probe_next. f_equal; [|lia].
    pose proof (Nat.mod_upper_bound (h + k * k) size ltac:(lia)) as Hlt.
    replace (h + S k * S k) with ((h + k * k) + (2 * k + 1)) by lia.
    pose proof (Nat.div_mod (h + k * k) size ltac:(lia)) as Hdm.
    set (q := (h + k * k) / size) in *. set (r := (h + k * k) mod size) in *.
    case_bool_decide.
    + apply (Nat.mod_unique _ _ (q + 1)); lia.
    + apply (Nat.mod_unique _ _ q); lia.
Qed.


Lemma occupied_cons e arr :
  occupied (e :: arr) = (if used e then 1 else 0) + occupied arr.
Proof.
  unfold occupied. rewrite filter_cons. destruct (used e) eqn:He.
  - by rewrite decide_True.
  - by rewrite decide_False by congruence.
Qed.

Lemma occupied_insert arr : ∀ i e e',
  arr !! i = Some e →
  occupied (<[i:=e']> arr) + (if used e then 1 else 0)
  = occupied arr + (if used e' then 1 else 0).
Proof.
  induction arr as [|e0 arr IH]; intros i e e' Hi; [done|].
  destruct i as [|i]; cbn in Hi.
  - injection Hi as ->. change (<[0:=e']> (e :: arr)) with (e' :: arr). rewrite !occupied_cons. lia.
  - change (<[S i:=e']> (e0 :: arr)) with (e0 :: <[i:=e']> arr).
    rewrite !occupied_cons. specialize (IH _ _ e' Hi). lia.
Qed.

Lemma occupied_alter f arr i e :
  arr !! i = Some e →
  occupied (alter f i arr) + (if used e then 1 else 0)
  = occupied arr + (if used (f e) then 1 else 0).
Proof.
  intros Hi. rewrite <- (occupied_insert arr i e (f e) Hi). f_equal.
  f_equal. apply list_eq. intros j. destruct (decide (i = j)) as [<-|].
  - rewrite list_lookup_alter_eq, list_lookup_insert_eq, Hi; [done|by eapply lookup_lt_Some].
  - by rewrite list_lookup_alter_ne, list_lookup_insert_ne.
Qed.

Lemma occupied_le_length arr : occupied arr ≤ length arr.
Proof. apply length_filter. Qed.

Lemma occupied_all_empty arr :
  Forall (λ e, type e = kEmpty) arr → occupied arr = 0.
Proof.
  induction 1 as [|e arr He _ IH]; [done|]. rewrite occupied_cons, IH.
  unfold used. by rewrite bool_decide_eq_false_2 by (by intros ?).
Qed.

(** Distinct indices of used slots are no more than the used slots. *)
Lemma used_indices_le (l : list nat) : ∀ arr,
  NoDup l →
  Forall (λ i, ∃ e, arr !! i = Some e ∧ used e = true) l →
  length l ≤ occupied arr.
Proof.
  induction l as [|i l IH]; intros arr Hnd Hall; [cbn; lia|].
  pose proof (NoDup_cons_1_1 _ _ Hnd) as Hi. apply NoDup_cons_1_2 in Hnd.
  apply Forall_cons_1 in Hall as [(e & He & Hu) Hall].
  pose proof (occupied_insert arr i e (set_type kEmpty e) He) as Hocc.
  rewrite Hu in Hocc.
  replace (used (set_type kEmpty e)) with false in Hocc
    by (symmetry; apply bool_decide_eq_false; by intros []).
  enough (length l ≤ occupied (<[i:=set_type kEmpty e]> arr)) by (cbn [length]; lia).
  apply IH; [done|]. rewrite list.Forall_forall in Hall |- *. intros j Hj.
  rewrite list_lookup_insert_ne; [by apply Hall|]. intros ->. by apply Hi.
Qed.

(** *** Quadratic probing reaches an Empty slot *)

(** With a prime size, the first [size / 2 + 1] probes are distinct. *)
Lemma square_mod_inj (size h i j : nat) :
  Z.prime (Z.of_nat size) → i ≤ size / 2 → j ≤ size / 2 →
  (h + i * i) mod size = (h + j * j) mod size → i = j.
Proof.
  intros Hp. 
  assert (∀ a b : nat, a < b → b ≤ size / 2 →
    (h + a * a) mod size = (h + b * b) mod size → False) as Hlt.
  { intros a b Hab Hb Heq.
    pose proof (Z.prime_ge_2 _ Hp) as Hge2.
    pose proof (Nat.div_mod (h + a * a) size ltac:(lia)) as Ha.
    pose proof (Nat.div_mod (h + b * b) size ltac:(lia)) as Hb'.
    rewrite Heq in Ha.
    pose proof (Nat.Div0.mul_div_le size 2) as Hhalf.
    assert (Z.of_nat size | (Z.of_nat b - Z.of_nat a) * (Z.of_nat b + Z.of_nat a))%Z as Hdiv.
    { exists (Z.of_nat ((h + b * b) / size) - Z.of_nat ((h + a * a) / size))%Z. nia. }
    apply Z.divide_prime_mul in Hdiv as [Hdiv|Hdiv]; [| |done];
      apply Z.divide_pos_le in Hdiv; lia. }
  intros Hi Hj Heq. destruct (Nat.lt_trichotomy i j) as [?|[?|?]]; [|done|].
  - by destruct (Hlt i j).
  - by destruct (Hlt j i).
Qed.

Lemma empty_slot_probed arr h :
  Z.prime (Z.of_nat (length arr)) → occupied arr ≤ length arr / 2 →
  ∃ n e, n ≤ length arr / 2 ∧
    arr !! ((h + n * n) mod length arr) = Some e ∧ type e = kEmpty.
Proof.
  intros Hp Hocc. pose proof (Z.prime_ge_2 _ Hp) as Hsize.
  set (size := length arr) in *.
  set (l := (λ n, (h + n * n) mod size) <$> seq 0 (size / 2 + 1)).
  set (usedb := λ i, match arr !! i with Some e => used e | None => false end).
  destruct (decide (Forall (λ i, usedb i = true) l)) as [Hall|Hex].
  - assert (length l ≤ occupied arr) as Hle.
    { apply used_indices_le.
      - apply NoDup_fmap_2_strong; [|apply NoDup_seq].
        intros a b [_ Ha]%elem_of_seq [_ Hb]%elem_of_seq.
        apply square_mod_inj; [done|lia..].
      - eapply list.Forall_impl; [done|]. intros i. unfold usedb.
        destruct (arr !! i) as [e|]; [|done]. by exists e. }
    unfold l in Hle. rewrite length_fmap, length_seq in Hle. lia.
  - apply not_Forall_Exists in Hex; [|apply _].
    apply list.Exists_exists in Hex as (i & Hi & Hfree%not_true_is_false).
    apply list_elem_of_fmap in Hi as (n & -> & [_ Hn]%elem_of_seq).
    unfold usedb in Hfree.
    destruct (lookup_lt_is_Some_2 arr ((h + n * n) mod size)) as [e He].
    { apply Nat.mod_upper_bound. lia. }
    rewrite He in Hfree. exists n, e. split_and!; [lia|done|].
    unfold used in Hfree. apply bool_decide_eq_false in Hfree.
    by destruct (decide (type e = kEmpty)).
Qed.

Lemma find_position_loop_stops arr x (n : nat) : ∀ fuel pos off,
  n < fuel →
  (∀ j, j ≤ n →
    (Nat.iter j (λ s, probe_next (length arr) s.1 s.2) (pos, off)).1 < length arr) →
  (∃ e, arr !! (Nat.iter n (λ s, probe_next (length arr) s.1 s.2) (pos, off)).1 = Some e
        ∧ keep_probing e x = false) →
  ∃ i, find_position_loop fuel arr x pos off = Ok i.
Proof.
  induction n as [|n IH]; intros fuel pos off Hfuel Hrange (e & He & Hstop);
    (destruct fuel as [|fuel]; [lia|]); cbn [find_position_loop]; unfold at_.
  - cbn in He. rewrite He. cbn [bind]. rewrite Hstop. by eexists.
  - destruct (lookup_lt_is_Some_2 arr pos) as [e0 He0]; [apply (Hrange 0); lia|].
    rewrite He0. cbn [bind]. destruct (keep_probing e0 x); [|by eexists].
    destruct (probe_next (length arr) pos off) as [pos' off'] eqn:Hnext.
    assert (∀ j, Nat.iter j (λ s, probe_next (length arr) s.1 s.2) (pos', off')
                 = Nat.iter (S j) (λ s, probe_next (length arr) s.1 s.2) (pos, off)) as Hshift.
    { intros j. rewrite Nat.iter_succ_r. cbn [fst snd]. by rewrite Hnext. }
    apply IH; [lia| |].
    + intros j Hj. rewrite Hshift. apply Hrange. lia.
    + exists e. by rewrite Hshift.
Qed.

Lemma find_position_returns t x :
  Z.prime (Z.of_nat (length (array t))) →
  occupied (array t) ≤ length (array t) / 2 →
  ∃ i, find_position t x = Ok i.
Proof.
  intros Hp Hocc. pose proof (Z.prime_ge_2 _ Hp) as Hsize.
  unfold find_position, hash. rewrite decide_False by lia. cbn [bind].
  destruct (empty_slot_probed (array t) (hash_object x) Hp Hocc) as (n & e & Hn & He & Hempty).
  pose proof (Nat.Div0.mul_div_le (length (array t)) 2) as Hhalf.
  apply (find_position_loop_stops _ _ n).
  - lia.
  - intros j Hj. fold (probe_state (length (array t)) (hash_object x mod length (array t)) j).
    rewrite probe_state_square by lia. cbn [fst]. apply Nat.mod_upper_bound. lia.
  - fold (probe_state (length (array t)) (hash_object x mod length (array t)) n).
    rewrite probe_state_square by lia. cbn [fst]. exists e. split; [done|].
    apply keep_probing_false. by left.
Qed.


(** *** Probing only looks at [keep_probing] *)

Lemma find_position_loop_ext fuel arr arr' x : 
  length arr = length arr' →
  (∀ j, (λ e, keep_probing e x) <$> arr !! j = (λ e, keep_probing e x) <$> arr' !! j) →
  ∀ pos off,
  find_position_loop fuel arr x pos off = find_position_loop fuel arr' x pos off.
Proof.
  intros Hlen Hext. induction fuel as [|fuel IH]; intros pos off; [done|].
  cbn [find_position_loop]. unfold at_. specialize (Hext pos).
  destruct (arr !! pos) as [e|], (arr' !! pos) as [e'|]; cbn in Hext; try done.
  cbn [bind]. injection Hext as ->. rewrite <- Hlen.
  destruct (keep_probing e' x); [|done].
  destruct (probe_next (length arr) pos off). apply IH.
Qed.

Lemma keep_probing_set_type e x ty :
  type e ≠ kEmpty → ty ≠ kEmpty →
  keep_probing (set_type ty e) x = keep_probing e x.
Proof.
  intros He Hty. unfold keep_probing, set_type. cbn [type element].
  rewrite (bool_decide_eq_true_2 (ty ≠ kEmpty)) by done.
  by rewrite (bool_decide_eq_true_2 (type e ≠ kEmpty)) by done.
Qed.

Lemma find_position_mark_deleted t x i e :
  array t !! i = Some e → type e = kActive →
  find_position {| array := alter (set_type kDeleted) i (array t);
                   current_size := current_size t |} x
  = find_position t x.
Proof.
  intros Hi Hact. unfold find_position, hash. cbn [array].
  rewrite length_alter. case_decide; [done|]. cbn [bind].
  symmetry. apply find_position_loop_ext; [by rewrite length_alter|].
  intros j. destruct (decide (i = j)) as [<-|].
  - rewrite list_lookup_alter_eq, Hi. cbn. f_equal.
    rewrite keep_probing_set_type; [done|congruence|done].
  - by rewrite list_lookup_alter_ne.
Qed.

(** *** [remove] *)

Lemma remove_Ok t x b t' :
  remove t x = Ok (b, t') ↔
  ∃ pos e, find_position t x = Ok pos ∧ array t !! pos = Some e ∧
    b = bool_decide (type e = kActive) ∧
    t' = if b then {| array := alter (set_type kDeleted) pos (array t);
                      current_size := current_size t |}
         else t.
Proof.
  unfold remove, is_active, at_. split.
  - destruct (find_position t x) as [pos| | |]; cbn [bind]; [|done..].
    destruct (array t !! pos) as [e|] eqn:He; cbn [bind]; [|done].
    destruct (bool_decide (type e = kActive)) eqn:Hb; cbn [negb];
      intros [= <- <-]; exists pos, e; by rewrite Hb.
  - intros (pos & e & -> & He & -> & ->). cbn [bind]. rewrite He. cbn [bind].
    by destruct (bool_decide (type e = kActive)).
Qed.

(** *** [get_key], [get_value] *)

Lemma not_found_iff e : not_found e = true ↔ type e = kEmpty.
Proof. unfold not_found. by destruct (type e). Qed.

Lemma get_value_spec t x pos e :
  find_position t x = Ok pos → array t !! pos = Some e →
  get_value t x = if bool_decide (type e = kEmpty) then LengthError else Ok (key e).
Proof.
  intros Hpos He. unfold get_value, at_. rewrite Hpos. cbn [bind].
  rewrite He. cbn [bind]. unfold not_found. by destruct (type e).
Qed.

Lemma get_key_spec t (k : K) pos e :
  find_position t (convert k) = Ok pos → array t !! pos = Some e →
  get_key t k = if bool_decide (type e = kEmpty) then LengthError else Ok (element e).
Proof.
  intros Hpos He. unfold get_key, at_. rewrite Hpos. cbn [bind].
  rewrite He. cbn [bind]. unfold not_found. by destruct (type e).
Qed.

(** *** [insert]: where it writes and what it returns *)

Lemma insert_S fuel t v (k : K) pos e :
  find_position t (convert k) = Ok pos → array t !! pos = Some e →
  insert (S fuel) t v k =
    if bool_decide (type e = kActive) then
      if bool_decide (key e = k) then
        Ok (false, {| array := alter (set_element v) pos (array t);
                      current_size := current_size t |})
      else Ok (false, t)
    else if bool_decide (length (array t) / 2 < current_size t + 1) then
      let* t' := rehash fuel (written t pos v k) in Ok (true, t')
    else Ok (true, written t pos v k).
Proof.
  intros Hpos He. cbn [insert]. rewrite Hpos. cbn [bind].
  unfold is_active, at_. rewrite He. cbn [bind].
  destruct (bool_decide (type e = kActive)); [done|].
  assert (length (array (written t pos v k)) = length (array t)) as ->
    by apply length_insert.
  by assert (current_size (written t pos v k) = current_size t + 1) as -> by done.
Qed.

Lemma insert_position_and_result fuel t v (k : K) b t' :
  insert fuel t v k = Ok (b, t') →
  ∃ pos e, find_position t (convert k) = Ok pos ∧ array t !! pos = Some e ∧
    b = negb (bool_decide (type e = kActive)) ∧
    if b then
      if bool_decide (length (array t) / 2 < current_size t + 1)
      then rehash (pred fuel) (written t pos v k) = Ok t'
      else t' = written t pos v k
    else
      t' = if bool_decide (key e = k)
           then {| array := alter (set_element v) pos (array t);
                   current_size := current_size t |}
           else t.
Proof.
  destruct fuel as [|fuel]; [done|]. intros Hrun.
  destruct (find_position t (convert k)) as [pos| | |] eqn:Hpos;
    try (cbn [insert] in Hrun; rewrite Hpos in Hrun; done).
  destruct (lookup_lt_is_Some_2 (array t) pos) as [e He]; [by eapply find_position_lt|].
  rewrite (insert_S _ _ _ _ _ _ Hpos He) in Hrun. exists pos, e.
  split; [done|]. split; [done|].
  destruct (bool_decide (type e = kActive)); cbn [negb].
  - by destruct (bool_decide (key e = k)); injection Hrun as <- <-.
  - destruct (bool_decide (length (array t) / 2 < current_size t + 1)).
    + cbn [pred]. destruct (rehash fuel _); cbn [bind] in Hrun; try done.
      by injection Hrun as <- <-.
    + by injection Hrun as <- <-.
Qed.

Lemma active_count_cons e arr :
  active_count (e :: arr)
  = (if bool_decide (type e = kActive) then 1 else 0) + active_count arr.
Proof.
  unfold active_count. rewrite filter_cons.
  case_bool_decide; [by rewrite decide_True|by rewrite decide_False].
Qed.

Lemma active_count_le_occupied arr : active_count arr ≤ occupied arr.
Proof.
  induction arr as [|e arr IH]; [done|]. rewrite active_count_cons, occupied_cons.
  unfold used. case_bool_decide as Hact; [|lia].
  rewrite bool_decide_eq_true_2 by congruence. lia.
Qed.

Lemma occupied_fmap_empty arr : occupied (set_type kEmpty <$> arr) = 0.
Proof. apply occupied_all_empty, Forall_fmap, Forall_true. done. Qed.

(** *** The load bound is kept (whenever a call returns) *)

Lemma table_ok_altered t pos e f :
  table_ok t → array t !! pos = Some e → used (f e) = used e →
  table_ok {| array := alter f pos (array t); current_size := current_size t |}.
Proof.
  intros (Hp & Hocc & Hload) He Hty. unfold table_ok. cbn [array current_size].
  rewrite length_alter. split_and!; [done| |done].
  pose proof (occupied_alter f _ _ _ He) as Ha. rewrite Hty in Ha. lia.
Qed.

Lemma occupied_written t pos v (k : K) e :
  array t !! pos = Some e →
  occupied (array (written t pos v k)) ≤ occupied (array t) + 1.
Proof.
  intros He. cbn [written array].
  pose proof (occupied_insert (array t) pos e (entry_ctor v k kActive) He).
  destruct (used e), (used _); lia.
Qed.

Lemma rehash_loop_inv (P : hash_table (T:=T) (K:=K) → Prop) ins :
  (∀ v k t b t', P t → ins v k t = Ok (b, t') → P t') →
  ∀ l t t', P t → rehash_loop ins l t = Ok t' → P t'.
Proof.
  intros Hins. induction l as [|e l IH]; intros t t' Ht; cbn [rehash_loop].
  - by intros [= <-].
  - case_bool_decide; [|by apply IH].
    destruct (ins (element e) (key e) t) as [[b t1]| | |] eqn:Hrun; cbn [bind]; [|done..].
    apply IH. by eapply Hins.
Qed.

Lemma rehash_with_Ok ins fuel t t' :
  rehash_with ins fuel t = Ok t' ↔
  ∃ n, next_prime fuel (2 * Z.of_nat (length (array t))) = Ok n ∧
    rehash_loop ins (array t) (cleared t (Z.to_nat n)) = Ok t'.
Proof.
  unfold rehash_with. split.
  - destruct (next_prime fuel _) as [n| | |] eqn:Hn; cbn [bind]; [|done..].
    destruct (Z.ltb_spec n 0); [done|]. intros ?. by exists n.
  - intros (n & Hn & Hloop). rewrite Hn. cbn [bind].
    apply next_prime_Ok in Hn as (_ & ? & _). destruct (Z.ltb_spec n 0); [lia|done].
Qed.

Lemma cleared_table_ok fuel t n :
  next_prime fuel (2 * Z.of_nat (length (array t))) = Ok n →
  current_size t ≤ length (array t) →
  table_ok (cleared t (Z.to_nat n))
  ∧ 2 * length (array t) + 1 ≤ Z.to_nat n ∧ Nat.Odd (Z.to_nat n).
Proof.
  intros (Hp & Hge & Hodd)%next_prime_Ok Hsize.
  assert (2 * Z.of_nat (length (array t)) + 1 ≤ n)%Z as Hge'.
  { destruct (decide (n = 2 * Z.of_nat (length (array t)))%Z) as [->|]; [|lia].
    destruct Hodd. exists (Z.of_nat (length (array t))). lia. }
  apply is_prime_sound in Hp; [|lia].
  unfold table_ok, cleared. cbn [array current_size].
  rewrite length_fmap, length_resize, occupied_fmap_empty, Z2Nat.id by lia.
  split_and!; [done|lia| |lia|].
  - apply Nat.div_le_lower_bound; lia.
  - apply odd_mod_2 in Hodd. pose proof (Z.div_mod n 2 ltac:(lia)).
    exists (Z.to_nat (n / 2)). lia.
Qed.

Lemma rehash_with_table_ok ins fuel t t' :
  (∀ v k t b t', table_ok t → ins v k t = Ok (b, t') → table_ok t') →
  current_size t ≤ length (array t) →
  rehash_with ins fuel t = Ok t' → table_ok t'.
Proof.
  intros Hins Hsize (n & Hn & Hloop)%rehash_with_Ok.
  eapply rehash_loop_inv; [done| |done]. by eapply cleared_table_ok.
Qed.

Lemma insert_table_ok fuel : ∀ t v (k : K) b t',
  table_ok t → insert fuel t v k = Ok (b, t') → table_ok t'.
Proof.
  induction fuel as [|fuel IH]; intros t v k b t' Hok Hrun; [done|].
  apply insert_position_and_result in Hrun as (pos & e & Hpos & He & -> & Hres).
  destruct (bool_decide (type e = kActive)) eqn:Hact; cbn [negb] in Hres.
  - subst t'. destruct (bool_decide (key e = k)); [|done].
    by eapply table_ok_altered.
  - pose proof (occupied_written t pos v k e He) as Hocc.
    destruct Hok as (Hp & Hocc' & Hload). pose proof (Z.prime_ge_2 _ Hp).
    destruct (bool_decide (length (array t) / 2 < current_size t + 1)) eqn:Hfull.
    + cbn [pred] in Hres. eapply rehash_with_table_ok; [| |exact Hres].
      * intros v' k' t1 b1 t1'. apply IH.
      * unfold written. cbn [array current_size]. rewrite length_insert.
        pose proof (Nat.Div0.mul_div_le (length (array t)) 2). lia.
    + subst t'. apply bool_decide_eq_false in Hfull. unfold table_ok, written in *.
      cbn [array current_size] in *. rewrite length_insert.
      split_and!; [done|lia|lia].
Qed.


(** *** The observable tables keep the load bound *)

Lemma ctor_table_ok fuel size t : hash_table_ctor fuel size = Ok t → table_ok t.
Proof.
  unfold hash_table_ctor.
  destruct (next_prime fuel size) as [n| | |] eqn:Hn; cbn [bind]; [|done..].
  destruct (Z.ltb_spec n 0); [done|]. intros [= <-].
  apply next_prime_Ok in Hn as (Hp & _ & _). apply is_prime_sound in Hp; [|done].
  unfold table_ok, make_empty. cbn [array current_size].
  rewrite length_fmap, length_replicate, occupied_fmap_empty, Z2Nat.id by done.
  split_and!; [done|lia..].
Qed.

Lemma make_empty_table_ok t : table_ok t → table_ok (make_empty t).
Proof.
  intros (Hp & _ & _). unfold table_ok, make_empty. cbn [array current_size].
  rewrite length_fmap, occupied_fmap_empty. split_and!; [done|lia..].
Qed.

Lemma remove_table_ok t x b t' : table_ok t → remove t x = Ok (b, t') → table_ok t'.
Proof.
  intros Hok (pos & e & _ & He & -> & ->)%remove_Ok.
  case_bool_decide as Hact; [|done]. eapply table_ok_altered; [done..|].
  unfold used, set_type. cbn [type]. rewrite Hact.
  by rewrite !bool_decide_eq_true_2.
Qed.

Lemma written_table_ok t pos v (k : K) e :
  table_ok t → array t !! pos = Some e →
  current_size t + 1 ≤ length (array t) / 2 →
  table_ok (written t pos v k).
Proof.
  intros (Hp & Hocc & _) He Hload. pose proof (occupied_written t pos v k e He).
  unfold table_ok, written in *. cbn [array current_size] in *.
  rewrite length_insert. split_and!; [done|lia..].
Qed.

Lemma written_size_le t pos v (k : K) :
  table_ok t →
  current_size (written t pos v k) ≤ length (array (written t pos v k)).
Proof.
  intros (Hp%Z.prime_ge_2 & _ & Hload). unfold written. cbn [array current_size].
  rewrite length_insert. pose proof (Nat.Div0.mul_div_le (length (array t)) 2). lia.
Qed.

Lemma rehash_table_ok fuel t t' :
  current_size t ≤ length (array t) → rehash fuel t = Ok t' → table_ok t'.
Proof.
  intros Hsize. apply rehash_with_table_ok; [|done].
  intros v k t1 b t1'. apply insert_table_ok.
Qed.

(** The slot that the rvalue overload leaves behind. *)
Lemma insert_move_slot arr pos v (k : K) :
  alter (set_type kActive) pos
    (<[pos:=entry_ctor (convert k) value_init kEmpty]>
       (<[pos:=entry_ctor v value_init kEmpty]> arr))
  = <[pos:=entry_ctor (convert k) (value_init : K) kActive]> arr.
Proof.
  rewrite list_insert_insert_eq. apply list_eq. intros j.
  destruct (decide (pos = j)) as [<-|].
  - rewrite list_lookup_alter_eq. destruct (decide (pos < length arr)).
    + rewrite !list_lookup_insert_eq by done. done.
    + rewrite !list_insert_ge by lia. by rewrite lookup_ge_None_2 by lia.
  - by rewrite list_lookup_alter_ne, !list_lookup_insert_ne.
Qed.

Lemma insert_move_table_ok fuel t v (k : K) b t' :
  table_ok t → insert_move fuel t v k = Ok (b, t') → table_ok t'.
Proof.
  intros Hok. unfold insert_move, is_active, at_.
  destruct (find_position t (convert k)) as [pos| | |]; cbn [bind]; [|done..].
  destruct (array t !! pos) as [e|] eqn:He; cbn [bind]; [|done].
  destruct (bool_decide (type e = kActive)).
  - destruct (bool_decide (key e = k)); intros [= <- <-]; [|done].
    by eapply table_ok_altered.
  - rewrite insert_move_slot.
    change (HashTable _ _) with (written t pos (convert k) (value_init : K)).
    case_bool_decide as Hfull.
    + destruct (rehash fuel _) as [t1| | |] eqn:Hre; cbn [bind]; [|done..].
      intros [= <- <-]. eapply rehash_table_ok; [|done]. by apply written_size_le.
    + intros [= <- <-]. eapply written_table_ok; [done..|].
      unfold written in Hfull. cbn [array current_size] in Hfull.
      rewrite length_insert in Hfull. lia.
Qed.

Lemma reachable_table_ok t : reachable t → table_ok t.
Proof.
  induction 1 as [fuel size t Hrun|t _ IH|fuel t v k b t' _ IH Hrun
                 |fuel t v k b t' _ IH Hrun|t v b t' _ IH Hrun|t k b t' _ IH Hrun
                 |fuel t v k pos n _ IH Hpos Hact Hfull Hn].
  - by eapply ctor_table_ok.
  - by apply make_empty_table_ok.
  - by eapply insert_table_ok.
  - by eapply insert_move_table_ok.
  - by eapply remove_table_ok.
  - by eapply remove_table_ok.
  - eapply cleared_table_ok.
    + unfold written at 1. cbn [array]. rewrite length_insert. done.
    + by apply written_size_le.
Qed.

(** *** [insert] returns: enough fuel *)

Lemma rehash_loop_mono ins ins' :
  (∀ v (k : K) t r, ins v k t = Ok r → ins' v k t = Ok r) →
  ∀ l t r, rehash_loop ins l t = Ok r → rehash_loop ins' l t = Ok r.
Proof.
  intros Hle. induction l as [|e l IH]; intros t r; cbn [rehash_loop]; [done|].
  case_bool_decide; [|by apply IH].
  destruct (ins (element e) (key e) t) as [[b t1]| | |] eqn:Hrun; cbn [bind]; [|done..].
  rewrite (Hle _ _ _ _ Hrun). cbn [bind]. apply IH.
Qed.

Lemma rehash_with_mono ins ins' fuel fuel' t r :
  (∀ v (k : K) t r, ins v k t = Ok r → ins' v k t = Ok r) → fuel ≤ fuel' →
  rehash_with ins fuel t = Ok r → rehash_with ins' fuel' t = Ok r.
Proof.
  intros Hle Hfuel. rewrite !rehash_with_Ok. intros (n & Hn & Hloop).
  exists n. split; [by eapply next_prime_mono|by eapply rehash_loop_mono].
Qed.

Lemma insert_mono fuel : ∀ fuel' t v (k : K) r,
  fuel ≤ fuel' → insert fuel t v k = Ok r → insert fuel' t v k = Ok r.
Proof.
  induction fuel as [|fuel IH]; intros fuel' t v k [b t'] Hle Hrun; [done|].
  destruct fuel' as [|fuel']; [lia|].
  pose proof Hrun as (pos & e & Hpos & He & _)%insert_position_and_result.
  rewrite (insert_S fuel _ _ _ _ _ Hpos He) in Hrun.
  rewrite (insert_S fuel' _ _ _ _ _ Hpos He).
  destruct (bool_decide (type e = kActive)); [done|].
  destruct (bool_decide (length (array t) / 2 < current_size t + 1)); [|done].
  unfold rehash in *.
  destruct (rehash_with _ fuel _) as [t1| | |] eqn:Hre; cbn [bind] in Hrun; [|done..].
  erewrite rehash_with_mono; [done| |by apply le_S_n|done].
  intros v' k' t2 r'. apply IH. lia.
Qed.

Lemma rehash_mono fuel fuel' t r :
  fuel ≤ fuel' → rehash fuel t = Ok r → rehash fuel' t = Ok r.
Proof.
  intros Hle. apply rehash_with_mono; [|done]. intros v k t1 r'. by apply insert_mono.
Qed.

Lemma find_position_slot t x :
  table_ok t → ∃ pos e, find_position t x = Ok pos ∧ array t !! pos = Some e.
Proof.
  intros (Hp & Hocc & Hload).
  destruct (find_position_returns t x Hp ltac:(lia)) as [pos Hpos].
  destruct (lookup_lt_is_Some_2 (array t) pos) as [e He]; [by eapply find_position_lt|].
  by exists pos, e.
Qed.

(** One [insert]: either it returns without rehashing, or it has
    written a fresh slot, the load is past one half, and it rehashes. *)
Lemma insert_cases t v (k : K) :
  table_ok t →
  (∃ b t', (∀ fuel, insert (S fuel) t v k = Ok (b, t')) ∧ table_ok t' ∧
     length (array t') = length (array t) ∧
     current_size t' ≤ current_size t + 1 ∧
     occupied (array t') ≤ occupied (array t) + 1)
  ∨ (∃ pos e, array t !! pos = Some e ∧
       length (array t) / 2 < current_size t + 1 ∧
       ∀ fuel, insert (S fuel) t v k
               = let* t' := rehash fuel (written t pos v k) in Ok (true, t')).
Proof.
  intros Hok. destruct (find_position_slot t (convert k) Hok) as (pos & e & Hpos & He).
  pose proof (λ fuel, insert_S fuel _ v _ _ _ Hpos He) as Hins.
  destruct (bool_decide (type e = kActive)).
  - left. destruct (bool_decide (key e = k)).
    + eexists _, _. split; [done|]. cbn [array current_size]. rewrite length_alter.
      split_and!; [by eapply table_ok_altered|done|lia|].
      pose proof (occupied_alter (set_element v) _ _ _ He) as Ha.
      change (used (set_element v e)) with (used e) in Ha. lia.
    + eexists _, _. split; [done|]. split_and!; [done|done|lia..].
  - case_bool_decide as Hfull.
    + right. by exists pos, e.
    + left. eexists _, _. split; [done|].
      split_and!; [eapply written_table_ok; [done..|lia]| | |].
      * apply length_insert.
      * done.
      * by eapply occupied_written.
Qed.

(** A run of re-insertions that stays within the load bound. *)
Lemma rehash_loop_quiet fuel : ∀ l t,
  table_ok t → current_size t + active_count l ≤ length (array t) / 2 →
  ∃ t', rehash_loop (λ v k t, insert (S fuel) t v k) l t = Ok t' ∧ table_ok t' ∧
    length (array t') = length (array t) ∧
    current_size t' ≤ current_size t + active_count l.
Proof.
  induction l as [|e l IH]; intros t Hok Hload; cbn [rehash_loop].
  - exists t. split_and!; [done..|lia].
  - rewrite active_count_cons in Hload |- *. case_bool_decide.
    + destruct (insert_cases t (element e) (key e) Hok)
        as [(b & t1 & -> & Hok1 & Hlen & Hsize & _)|(pos & e0 & _ & Hfull & _)]; [|lia].
      cbn [bind]. destruct (IH t1 Hok1) as (t' & -> & ? & ? & ?); [rewrite Hlen; lia|].
      exists t'. split_and!; [done..|lia|lia].
    + destruct (IH t Hok) as (t' & -> & ? & ? & ?); [lia|].
      exists t'. split_and!; [done..|lia].
Qed.

(** A rehash whose re-insertions cause no further rehash. *)
Lemma rehash_quiet t :
  current_size t + active_count (array t) ≤ length (array t) →
  ∃ fuel t', rehash fuel t = Ok t' ∧ table_ok t' ∧
    2 * length (array t) + 1 ≤ length (array t') ∧
    current_size t' ≤ current_size t + active_count (array t).
Proof.
  intros Hload.
  destruct (next_prime_terminates (2 * Z.of_nat (length (array t)))) as (fuel & n & Hn).
  destruct (cleared_table_ok _ _ _ Hn ltac:(lia)) as (Hok & Hge & _).
  assert (length (array (cleared t (Z.to_nat n))) = Z.to_nat n) as Hlen.
  { unfold cleared. cbn [array]. by rewrite length_fmap, length_resize. }
  destruct (rehash_loop_quiet fuel (array t) _ Hok) as (t' & Hloop & Hok' & Hlen' & Hsize).
  { rewrite Hlen. unfold cleared at 1. cbn [current_size].
    apply Nat.div_le_lower_bound; lia. }
  exists (S fuel), t'. split_and!; [|done|lia|done].
  apply rehash_with_Ok. exists n. split; [|done].
  eapply next_prime_mono; [|done]. lia.
Qed.

(** The re-insertions of one rehash, where at most one of them starts
    a second rehash. *)
Lemma rehash_loop_completes : ∀ l t,
  table_ok t → Nat.Odd (length (array t)) →
  occupied (array t) + active_count l ≤ length (array t) / 2 →
  ∃ fuel t', rehash_loop (λ v k t, insert fuel t v k) l t = Ok t' ∧ table_ok t'.
Proof.
  induction l as [|e l IH]; intros t Hok Hodd Hload; cbn [rehash_loop].
  - by exists 0, t.
  - rewrite active_count_cons in Hload. case_bool_decide; [|by apply IH; [..|lia]].
    destruct (insert_cases t (element e) (key e) Hok)
      as [(b & t1 & Hrun & Hok1 & Hlen & _ & Hocc)
         |(pos & e0 & He0 & Hfull & Hrun)].
    + destruct (IH t1 Hok1) as (fuel & t' & Hloop & Hok'); [by rewrite Hlen|rewrite Hlen; lia|].
      exists (S fuel), t'. split; [|done]. rewrite Hrun. cbn [bind].
      eapply rehash_loop_mono; [|done]. intros v k t2 r. apply insert_mono. lia.
    + pose proof Hok as (_ & _ & Hsize). destruct Hodd as [m Hm].
      assert (length (array t) / 2 = m) as Hhalf.
      { rewrite Hm. symmetry. apply (Nat.div_unique _ _ _ 1); lia. }
      set (t1 := written t pos (element e) (key e)) in *.
      assert (length (array t1) = length (array t)) as Hlen1 by apply length_insert.
      pose proof (occupied_written t pos (element e) (key e) e0 He0) as Hocc1.
      pose proof (active_count_le_occupied (array t1)) as Hact1. fold t1 in Hocc1.
      destruct (rehash_quiet t1) as (fuel & t2 & Hre & Hok2 & Hlen2 & Hsize2).
      { rewrite Hlen1. unfold t1 at 1, written. cbn [current_size]. lia. }
      destruct (rehash_loop_quiet fuel l t2 Hok2) as (t' & Hloop & Hok' & _).
      { apply Nat.div_le_lower_bound; [lia|].
        unfold t1 at 1, written in Hsize2. cbn [current_size] in Hsize2. lia. }
      exists (S fuel), t'. split; [|done]. by rewrite Hrun, Hre.
Qed.

(** [insert] returns on every table that keeps the load bound. *)
Lemma insert_completes t v (k : K) :
  table_ok t → ∃ fuel b t', insert fuel t v k = Ok (b, t') ∧ table_ok t'.
Proof.
  intros Hok. destruct (insert_cases t v k Hok)
    as [(b & t1 & Hrun & Hok1 & _)|(pos & e0 & He0 & Hfull & Hrun)].
  - by exists 1, b, t1.
  - pose proof Hok as (Hp%Z.prime_ge_2 & Hocc & Hsize).
    set (t1 := written t pos v k) in *.
    assert (length (array t1) = length (array t)) as Hlen1 by apply length_insert.
    pose proof (occupied_written t pos v k e0 He0) as Hocc1.
    pose proof (active_count_le_occupied (array t1)) as Hact1. fold t1 in Hocc1.
    pose proof (Nat.Div0.mul_div_le (length (array t)) 2) as Hhalf.
    destruct (next_prime_terminates (2 * Z.of_nat (length (array t1)))) as (fp & n & Hn).
    destruct (cleared_table_ok _ _ _ Hn) as (Hokc & Hge & Hodd).
    { rewrite Hlen1. unfold t1, written. cbn [current_size]. lia. }
    assert (length (array (cleared t1 (Z.to_nat n))) = Z.to_nat n) as Hlenc.
    { unfold cleared. cbn [array]. by rewrite length_fmap, length_resize. }
    destruct (rehash_loop_completes (array t1) (cleared t1 (Z.to_nat n)) Hokc)
      as (fl & t' & Hloop & Hok'); [by rewrite Hlenc| |].
    { rewrite Hlenc. unfold cleared at 1. cbn [array].
      rewrite occupied_fmap_empty. apply Nat.div_le_lower_bound; lia. }
    exists (S (fp + fl)), true, t'. split; [|done]. rewrite Hrun.
    assert (rehash (fp + fl) t1 = Ok t') as ->; [|done].
    apply rehash_with_Ok. exists n. split; [eapply next_prime_mono; [|done]; lia|].
    eapply rehash_loop_mono; [|done]. intros v' k' t2 r. apply insert_mono. lia.
Qed.

Lemma reachable_insert_completes t v (k : K) :
  reachable t → ∃ fuel b t', insert fuel t v k = Ok (b, t').
Proof.
  intros Hok%reachable_table_ok.
  destruct (insert_completes t v k Hok) as (fuel & b & t' & Hrun & _). by exists fuel, b, t'.
Qed.

(** *** Under the load bound every probe is one of the first [size / 2 + 1] *)

Lemma probes_loop_length arr x (n : nat) : ∀ fuel pos off,
  (∃ e, arr !! (Nat.iter n (λ s, probe_next (length arr) s.1 s.2) (pos, off)).1 = Some e
        ∧ keep_probing e x = false) →
  length (probes_loop fuel arr x pos off) ≤ n + 1.
Proof.
  induction n as [|n IH]; intros fuel pos off (e & He & Hstop);
    (destruct fuel as [|fuel]; [cbn; lia|]); cbn [probes_loop length].
  - cbn in He. rewrite He, Hstop. cbn. lia.
  - destruct (arr !! pos) as [e0|]; [|cbn; lia].
    destruct (keep_probing e0 x); [|cbn; lia].
    destruct (probe_next (length arr) pos off) as [pos' off'] eqn:Hnext.
    enough (length (probes_loop fuel arr x pos' off') ≤ n + 1) by lia.
    apply IH. exists e. rewrite Nat.iter_succ_r in He. cbn [fst snd] in He.
    by rewrite Hnext in He.
Qed.

Lemma probes_within_half t x :
  table_ok t → length (probes t x) ≤ length (array t) / 2 + 1.
Proof.
  intros (Hp & Hocc & Hload). pose proof (Z.prime_ge_2 _ Hp) as Hsize.
  unfold probes, hash. rewrite decide_False by lia.
  destruct (empty_slot_probed (array t) (hash_object x) Hp ltac:(lia))
    as (n & e & Hn & He & Hempty).
  pose proof (Nat.Div0.mul_div_le (length (array t)) 2) as Hhalf.
  etrans; [apply (probes_loop_length _ _ n)|lia].
  fold (probe_state (length (array t)) (hash_object x mod length (array t)) n).
  rewrite probe_state_square by lia. cbn [fst]. exists e. split; [done|].
  apply keep_probing_false. by left.
Qed.

(** While the offset added before attempt [n] is at most the capacity,
    the single subtraction of the loop is a reduction modulo the
    capacity. *)
Lemma probes_lookup_square t x (n i : nat) :
  probes t x !! n = Some i → 2 * n ≤ length (array t) + 1 →
  i = (hash_object x + n * n) mod length (array t) ∧ i < length (array t).
Proof.
  unfold probes, hash. case_decide as Hsize; [done|]. intros Hn Hle.
  apply probes_loop_lookup in Hn. fold (probe_state (length (array t))
    (hash_object x mod length (array t)) n) in Hn.
  rewrite probe_state_square in Hn by lia. cbn [fst] in Hn. subst i.
  split; [done|]. apply Nat.mod_upper_bound. lia.
Qed.

End hash_table_facts.

(** ** The claims of the specification *)

Section hash_table_claims.
Context {T K : Type} `{EqDecision T} `{EqDecision K}.
Context `{Hash T} `{Convertible K T} `{ValueInit T} `{ValueInit K}.

Implicit Types (t : hash_table (T:=T) (K:=K)) (e : entry (T:=T) (K:=K)) (x : T).

(** C2 (as amended): [find_position] returns the last index it examines;
    the slot there is Empty or holds the probed item, whatever its tag
    (so a Deleted slot that holds the item stops the search), and every
    slot it passed is not Empty and holds another payload (so a Deleted
    slot with another payload never stops it). *)
Theorem find_position_stop_condition t x i :
  find_position t x = Ok i →
  ∃ l e, probes t x = l ++ [i] ∧ array t !! i = Some e ∧
    (type e = kEmpty ∨ element e = x) ∧
    Forall (λ j, ∃ e', array t !! j = Some e' ∧ type e' ≠ kEmpty ∧ element e' ≠ x) l.
Proof.
  intros (l & e & Hl & He & Hstop%keep_probing_false & Hall)%find_position_Ok.
  exists l, e. split_and!; [done..|].
  eapply list.Forall_impl; [done|]. intros j (e' & ? & ?%keep_probing_true). by exists e'.
Qed.

(** C3: on every observable table [find_position] returns, the indices
    it examines end with the one it returns, and the index examined on
    attempt [n] is [(hash(item) + n^2) mod capacity], an index of the
    backing sequence. *)
Theorem probe_index_square t x :
  reachable t →
  (∃ pos l, find_position t x = Ok pos ∧ probes t x = l ++ [pos]) ∧
  ∀ n i : nat, probes t x !! n = Some i →
    i = (hash_object x + n * n) mod length (array t) ∧ i < length (array t).
Proof.
  intros Hok%reachable_table_ok. split.
  - destruct (find_position_slot t x Hok) as (pos & e & Hpos & _).
    pose proof Hpos as (l & _ & Hl & _)%find_position_Ok. by exists pos, l.
  - intros n i Hn. apply probes_lookup_square; [done|].
    pose proof (probes_within_half t x Hok) as Hlen.
    pose proof (lookup_lt_Some _ _ _ Hn) as Hlt.
    pose proof (Nat.Div0.mul_div_le (length (array t)) 2). lia.
Qed.

(** C6: every observable table has [current_size <= capacity / 2],
    and so has at most that many Active slots; this includes the tables
    between the re-insertions of a rehash. *)
Theorem load_factor_invariant t :
  reachable t →
  current_size t ≤ length (array t) / 2 ∧ active_count (array t) ≤ length (array t) / 2.
Proof.
  intros (_ & Hocc & Hload)%reachable_table_ok. split; [done|].
  pose proof (active_count_le_occupied (array t)). lia.
Qed.

(** C7: on a table of prime capacity whose [current_size] counts at least
    the slots in use and is at most half the capacity, [find_position]
    returns an index of the sequence whose slot is Empty or holds the
    item, and the operations that call it complete. *)
Theorem find_position_terminates t x :
  Z.prime (Z.of_nat (length (array t))) →
  occupied (array t) ≤ current_size t →
  current_size t ≤ length (array t) / 2 →
  (∃ i e, find_position t x = Ok i ∧ array t !! i = Some e ∧
          (type e = kEmpty ∨ element e = x)) ∧
  (∃ b, contains t x = Ok b) ∧
  (∃ b t', remove t x = Ok (b, t')) ∧
  (get_value t x = LengthError ∨ ∃ k, get_value t x = Ok k) ∧
  (∀ (v : T) (k : K), ∃ fuel b t', insert fuel t v k = Ok (b, t')).
Proof.
  intros Hp Hocc Hload. assert (table_ok t) as Hok by done.
  destruct (find_position_slot t x Hok) as (i & e & Hi & He).
  pose proof Hi as (_ & e' & _ & He' & Hstop%keep_probing_false & _)%find_position_Ok.
  rewrite He in He'. injection He' as <-. split_and!.
  - by exists i, e.
  - unfold contains, is_active, at_. rewrite Hi. cbn [bind]. rewrite He. by eexists.
  - eexists _, _. apply remove_Ok. by exists i, e.
  - rewrite (get_value_spec t x i e Hi He). case_bool_decide; [by left|right; by eexists].
  - intros v k. destruct (insert_completes t v k Hok) as (fuel & b & t' & Hrun & _).
    by exists fuel, b, t'.
Qed.

(** C8: after [remove(x)] has returned, [contains(x)] is false and a
    second [remove(x)] returns false and changes nothing. *)
Theorem remove_then_absent t x b t' :
  remove t x = Ok (b, t') →
  contains t' x = Ok false ∧ remove t' x = Ok (false, t').
Proof.
  intros (pos & e & Hpos & He & -> & ->)%remove_Ok.
  destruct (bool_decide (type e = kActive)) eqn:Hact.
  - apply bool_decide_eq_true in Hact.
    pose proof (find_position_mark_deleted t x pos e He Hact) as Hsame.
    assert (alter (set_type kDeleted) pos (array t) !! pos = Some (set_type kDeleted e)) as He'.
    { by rewrite list_lookup_alter_eq, He. }
    split.
    + unfold contains. rewrite Hsame, Hpos. cbn [bind].
      unfold is_active, at_. cbn [array]. by rewrite He'.
    + apply remove_Ok. exists pos, (set_type kDeleted e).
      rewrite Hsame. by split_and!.
  - split.
    + unfold contains, is_active, at_. rewrite Hpos. cbn [bind].
      rewrite He. cbn [bind]. by rewrite Hact.
    + apply remove_Ok. exists pos, e. by rewrite Hact.
Qed.

(** C9 (as amended): constructing with a requested capacity [size]
    from 2 to 2147302891, the largest prime below 46339 * 46339, returns,
    for all fuel past some bound, a table whose capacity is the least
    prime other than 2 that is at least [size] (the least prime at
    least [size] when [size >= 3], and 3 when [size = 2]), with every
    slot Empty and [current_size] zero. In this range no number that
    the search tests makes [counter * counter] overflow. *)
Theorem ctor_capacity (size : Z) :
  (2 ≤ size ≤ 2147302891)%Z →
  ∃ p : Z,
    Z.prime p ∧ (size ≤ p ≤ 2147302891)%Z ∧ p ≠ 2%Z ∧
    (∀ q, Z.prime q → (size ≤ q)%Z → q ≠ 2%Z → (p ≤ q)%Z) ∧
    (∀ n, (size ≤ n ≤ p)%Z → is_prime_int n = Ok (is_prime n)) ∧
    ∃ fuel0, ∀ fuel, fuel0 ≤ fuel →
      ∃ t, hash_table_ctor fuel size = Ok t ∧
        Z.of_nat (length (array t)) = p ∧
        Forall (λ e, type e = kEmpty) (array t) ∧
        current_size t = 0.
Proof.
  intros Hsize. destruct (next_prime_terminates size) as (fuel0 & p & Hp).
  pose proof Hp as (Hprime & Hle & Hodd)%next_prime_Ok.
  pose proof (next_prime_below _ _ _ Hsize Hp) as Hmax.
  apply is_prime_sound in Hprime; [|lia].
  exists p. split_and!; [done|lia|lia| | | |].
  - intros ->. destruct Hodd. by exists 1%Z.
  - intros q Hq Hge Hq2. eapply next_prime_least; [done..|].
    apply Hq. pose proof (Z.prime_ge_2 _ Hq). lia.
  - intros n Hn. apply is_prime_int_agrees. lia.
  - exists fuel0. intros fuel Hfuel. unfold hash_table_ctor.
    rewrite (next_prime_mono _ _ _ _ Hfuel Hp). cbn [bind].
    destruct (Z.ltb_spec p 0); [lia|]. eexists. split; [done|].
    unfold make_empty. cbn [array current_size].
    rewrite length_fmap, length_replicate, Z2Nat.id by lia.
    split_and!; [done| |done]. by apply Forall_fmap, Forall_true.
Qed.

(** C10: a [remove(x)] that returns true has only changed the tag of
    the slot at [find_position(x)] to Deleted: that slot keeps its
    element and key, and every other slot, the capacity and
    [current_size] are as before; one that returns false has changed
    nothing. *)
Theorem remove_frame t x b t' :
  remove t x = Ok (b, t') →
  if b then
    ∃ pos e, find_position t x = Ok pos ∧ array t !! pos = Some e ∧ type e = kActive ∧
      array t' !! pos = Some {| element := element e; key := key e; type := kDeleted |} ∧
      (∀ j, j ≠ pos → array t' !! j = array t !! j) ∧
      length (array t') = length (array t) ∧
      current_size t' = current_size t
  else t' = t.
Proof.
  intros (pos & e & Hpos & He & -> & ->)%remove_Ok.
  destruct (bool_decide (type e = kActive)) eqn:Hact; [|done].
  apply bool_decide_eq_true in Hact. exists pos, e. cbn [array current_size].
  split_and!; try done.
  - by rewrite list_lookup_alter_eq, He.
  - intros j Hj. by rewrite list_lookup_alter_ne.
  - apply length_alter.
Qed.
End hash_table_claims.

(** ** The instance [hash_table<long, unsigned>]: concrete runs *)

Lemma table_10_ctor : hash_table_ctor 10 10 = Ok table_10.
Proof. vm_compute. reflexivity. Qed.

Lemma table_7_insert : insert 10 table_10 7%Z 7 = Ok (true, table_7).
Proof. vm_compute. reflexivity. Qed.

Lemma table_7_remove : remove table_7 7%Z = Ok (true, table_7_removed).
Proof. vm_compute. reflexivity. Qed.

Lemma table_5_inserts :
  inserts 10 [(24%Z, 1); (9%Z, 24); (100%Z, 3); (101%Z, 4); (102%Z, 5)] table_10
  = Ok table_5.
Proof. vm_compute. reflexivity. Qed.

Lemma table_6_insert : insert 10 table_5 103%Z 6 = Ok (true, table_6).
Proof. vm_compute. reflexivity. Qed.

(** Without a reset of [current_size] the re-insertions of a rehash are
    counted a second time: the sixth insert into a table of capacity 11
    rehashes to capacity 23 and, on its last re-insertion, again to 47. *)
Lemma table_own_keys_capacity :
  inserts 10 [(1%Z, 1); (2%Z, 2); (3%Z, 3); (4%Z, 4); (5%Z, 5); (6%Z, 6)] table_10
  = Ok table_own_keys
  ∧ length (array table_own_keys) = 47
  ∧ current_size table_own_keys = 18
  ∧ next_prime 10 (2 * 11) = Ok 23%Z.
Proof. vm_compute. done. Qed.

(** C1: the pairs (24, 1), (9, 24), (100, 3), (101, 4), (102, 5) are
    inserted into a table of capacity 11 and all five are stored. The
    insert of (103, 6) raises the count to 6 > 11 / 2 and rehashes to
    capacity 23; there the re-insertion of (9, 24) probes for its key 24,
    stops at the slot that holds the element 24 of the pair (24, 1), and
    is rejected: the pair (9, 24) is in no slot of the rehashed table. *)
Theorem rehash_drops_active_entry :
  inserts 10 [(24%Z, 1); (9%Z, 24); (100%Z, 3); (101%Z, 4); (102%Z, 5)] table_10
  = Ok table_5
  ∧ length (array table_5) = 11
  ∧ stored table_5 9%Z 24
  ∧ insert 10 table_5 103%Z 6 = Ok (true, table_6)
  ∧ length (array table_6) = 23
  ∧ ¬ stored table_6 9%Z 24
  ∧ Forall (λ e, type e = kActive → element e ≠ 9%Z ∧ key e ≠ 24) (array table_6).
Proof.
  split_and!; try (vm_compute; reflexivity).
  - by exists 2.
  - intros [i Hi%list_elem_of_lookup_2].
    assert (entry_ctor 9%Z 24 kActive ∉ array table_6) as Hnot; [|by apply Hnot].
    apply (bool_decide_unpack _). vm_compute. exact I.
  - apply (bool_decide_unpack (Forall _ _)). vm_compute. exact I.
Qed.

(** The same defect seen through the accessors: the pair (12, 1) sits at
    the home slot of its key; in capacity 11 that is also the home slot of
    the value 12, so [contains(12)] and [get_value(12)] find it. After the
    rehash (to capacity 23 and, the count not being reset, on to 47) the
    pair is stored at slot 1 again, the value 12 hashes to slot 12, and
    both accessors miss it. *)
Lemma rehash_loses_lookup :
  contains table_12 12%Z = Ok true
  ∧ get_value table_12 12%Z = Ok 1
  ∧ insert 10 table_12 7%Z 7 = Ok (true, table_12_rehashed)
  ∧ length (array table_12_rehashed) = 47
  ∧ array table_12_rehashed !! 1 = Some (Entry 12%Z 1 kActive)
  ∧ contains table_12_rehashed 12%Z = Ok false
  ∧ get_value table_12_rehashed 12%Z = LengthError.
Proof. vm_compute. done. Qed.

(** C2, counterexample: after [insert(7, 7)] and [remove(7)] the slot 7
    is Deleted and still holds 7; [find_position(7)] stops there. *)
Lemma find_position_stops_at_deleted :
  remove table_7 7%Z = Ok (true, table_7_removed)
  ∧ find_position table_7_removed 7%Z = Ok 7
  ∧ array table_7_removed !! 7 = Some (Entry 7%Z 7 kDeleted).
Proof. vm_compute. done. Qed.

(** C4: [insert(5, 1)] into the empty table of capacity 11 takes its slot
    from [find_position(key)]: it activates slot 1 and leaves slot 5, the
    position of the value, Empty. Every lookup probes from the hash of
    the item it is given and compares stored elements with it, so none
    finds the pair: [contains] of the value and of the key are false,
    [get_value] and [get_key] throw, both removes return false, and the
    same [insert] again returns true and stores a second copy. *)
Theorem insert_by_key_hides_pair :
  find_position table_10 5%Z = Ok 5
  ∧ find_position table_10 (convert 1) = Ok 1
  ∧ insert 10 table_10 5%Z 1 = Ok (true, table_5_1)
  ∧ array table_5_1 !! 1 = Some (Entry 5%Z 1 kActive)
  ∧ array table_5_1 !! 5 = Some (Entry 0%Z 0 kEmpty)
  ∧ contains table_5_1 5%Z = Ok false
  ∧ contains_key table_5_1 1 = Ok false
  ∧ get_value table_5_1 5%Z = LengthError
  ∧ get_key table_5_1 1 = LengthError
  ∧ remove table_5_1 5%Z = Ok (false, table_5_1)
  ∧ remove_key table_5_1 1 = Ok (false, table_5_1)
  ∧ insert 10 table_5_1 5%Z 1 = Ok (true, table_5_1_twice)
  ∧ array table_5_1_twice !! 1 = Some (Entry 5%Z 1 kActive)
  ∧ array table_5_1_twice !! 2 = Some (Entry 5%Z 1 kActive).
Proof. vm_compute. done. Qed.

(** C5: after [insert(7, 7)] and [remove(7)] the slot found for 7 is
    Deleted, and [get_value(7)] and [get_key(7)] return what it holds
    instead of throwing: [type == !kActive] is [type == 1], true of
    [kEmpty] only. *)
Theorem get_value_of_removed_entry :
  remove table_7 7%Z = Ok (true, table_7_removed)
  ∧ find_position table_7_removed 7%Z = Ok 7
  ∧ array table_7_removed !! 7 = Some (Entry 7%Z 7 kDeleted)
  ∧ contains table_7_removed 7%Z = Ok false
  ∧ get_value table_7_removed 7%Z = Ok 7
  ∧ get_key table_7_removed 7 = Ok 7%Z.
Proof. vm_compute. done. Qed.

(** C9, counterexample: requesting capacity 2 gives capacity 3, though 2
    is prime. *)
Lemma ctor_2_capacity_3 :
  hash_table_ctor 10 2 = Ok table_2
  ∧ length (array table_2) = 3
  ∧ Z.prime 2.
Proof. split_and!; [vm_compute; reflexivity..|apply Z.prime_2]. Qed.

(** *** The theorems at concrete inputs *)

Lemma find_position_stop_condition_witness :
  find_position table_7 7%Z = Ok 7
  ∧ ∃ l e, probes table_7 7%Z = l ++ [7] ∧ array table_7 !! 7 = Some e ∧
      (type e = kEmpty ∨ element e = 7%Z) ∧
      Forall (λ j, ∃ e', array table_7 !! j = Some e' ∧ type e' ≠ kEmpty
                         ∧ element e' ≠ 7%Z) l.
Proof.
  split; [vm_compute; reflexivity|].
  apply (find_position_stop_condition table_7 7%Z 7). vm_compute. reflexivity.
Defined.

Lemma probe_index_square_witness :
  reachable table_7
  ∧ (∃ pos l, find_position table_7 18%Z = Ok pos ∧ probes table_7 18%Z = l ++ [pos])
  ∧ ∀ n i : nat, probes table_7 18%Z !! n = Some i →
      i = (hash_object 18%Z + n * n) mod length (array table_7)
      ∧ i < length (array table_7).
Proof.
  assert (reachable table_7) as Hreach.
  { apply (reachable_insert 10 table_10 7%Z 7 true); [|vm_compute; reflexivity].
    apply (reachable_ctor 10 10). vm_compute. reflexivity. }
  split; [exact Hreach|]. apply (probe_index_square table_7 18%Z Hreach).
Defined.

Lemma load_factor_invariant_witness :
  reachable table_2_two
  ∧ current_size table_2_two ≤ length (array table_2_two) / 2
  ∧ active_count (array table_2_two) ≤ length (array table_2_two) / 2.
Proof.
  assert (reachable table_2_two) as Hreach.
  { apply (reachable_insert 10 table_2_one 5%Z 5 true); [|vm_compute; reflexivity].
    apply (reachable_insert 10 table_2 7%Z 7 true); [|vm_compute; reflexivity].
    apply (reachable_ctor 10 2). vm_compute. reflexivity. }
  split; [exact Hreach|]. apply (load_factor_invariant table_2_two Hreach).
Defined.

Lemma find_position_terminates_witness :
  Z.prime (Z.of_nat (length (array table_7)))
  ∧ occupied (array table_7) ≤ current_size table_7
  ∧ current_size table_7 ≤ length (array table_7) / 2
  ∧ (∃ i e, find_position table_7 29%Z = Ok i ∧ array table_7 !! i = Some e ∧
            (type e = kEmpty ∨ element e = 29%Z))
  ∧ (∃ b, contains table_7 29%Z = Ok b)
  ∧ (∃ b t', remove table_7 29%Z = Ok (b, t'))
  ∧ (get_value table_7 29%Z = LengthError ∨ ∃ k, get_value table_7 29%Z = Ok k)
  ∧ (∀ (v : Z) (k : nat), ∃ fuel b t', insert fuel table_7 v k = Ok (b, t')).
Proof.
  assert (Z.prime (Z.of_nat (length (array table_7)))) as Hp.
  { apply is_prime_sound; [vm_compute; discriminate|vm_compute; reflexivity]. }
  assert (occupied (array table_7) ≤ current_size table_7) as Hocc by (vm_compute; lia).
  assert (current_size table_7 ≤ length (array table_7) / 2) as Hload by (vm_compute; lia).
  split; [exact Hp|]. split; [exact Hocc|]. split; [exact Hload|].
  apply (find_position_terminates table_7 29%Z Hp Hocc Hload).
Defined.

Lemma remove_then_absent_witness :
  remove table_7 7%Z = Ok (true, table_7_removed)
  ∧ contains table_7_removed 7%Z = Ok false
  ∧ remove table_7_removed 7%Z = Ok (false, table_7_removed).
Proof.
  split; [vm_compute; reflexivity|].
  apply (remove_then_absent table_7 7%Z true table_7_removed). vm_compute. reflexivity.
Defined.

Lemma ctor_capacity_witness :
  (2 ≤ 10 ≤ 2147302891)%Z
  ∧ ∃ p : Z,
      Z.prime p ∧ (10 ≤ p ≤ 2147302891)%Z ∧ p ≠ 2%Z ∧
      (∀ q, Z.prime q → (10 ≤ q)%Z → q ≠ 2%Z → (p ≤ q)%Z) ∧
      (∀ n, (10 ≤ n ≤ p)%Z → is_prime_int n = Ok (is_prime n)) ∧
      ∃ fuel0, ∀ fuel, fuel0 ≤ fuel →
        ∃ t : long_table, hash_table_ctor fuel 10 = Ok t ∧
          Z.of_nat (length (array t)) = p ∧
          Forall (λ e, type e = kEmpty) (array t) ∧
          current_size t = 0.
Proof. split; [lia|]. apply (ctor_capacity (T:=Z) (K:=nat) 10). lia. Defined.

Lemma remove_frame_witness :
  remove table_7 7%Z = Ok (true, table_7_removed)
  ∧ ∃ pos e, find_position table_7 7%Z = Ok pos ∧ array table_7 !! pos = Some e ∧
      type e = kActive ∧
      array table_7_removed !! pos
      = Some {| element := element e; key := key e; type := kDeleted |} ∧
      (∀ j, j ≠ pos → array table_7_removed !! j = array table_7 !! j) ∧
      length (array table_7_removed) = length (array table_7) ∧
      current_size table_7_removed = current_size table_7.
Proof.
  split; [vm_compute; reflexivity|].
  apply (remove_frame table_7 7%Z true table_7_removed). vm_compute. reflexivity.
Defined.

(** ** Further properties of the table *)

Section hash_table_more.
Context {T K : Type} `{EqDecision T} `{EqDecision K}.
Context `{Hash T} `{Convertible K T} `{ValueInit T} `{ValueInit K}.

Implicit Types (t : hash_table (T:=T) (K:=K)) (arr : list (entry (T:=T) (K:=K))).
Implicit Types (e : entry (T:=T) (K:=K)) (value x y : T).

(** *** Probing after one slot has been overwritten *)

Lemma find_position_loop_insert_stop fuel arr x pos e' :
  keep_probing e' x = false → ∀ c off,
  find_position_loop fuel arr x c off = Ok pos →
  find_position_loop fuel (<[pos:=e']> arr) x c off = Ok pos.
Proof.
  intros Hstop. induction fuel as [|fuel IH]; intros c off; [done|].
  cbn [find_position_loop]. unfold at_.
  destruct (arr !! c) as [e|] eqn:Hc; cbn [bind]; [|done].
  destruct (decide (c = pos)) as [->|Hne].
  - intros _. rewrite list_lookup_insert_eq by (by eapply lookup_lt_Some).
    cbn [bind]. by rewrite Hstop.
  - rewrite list_lookup_insert_ne, Hc by done. cbn [bind]. rewrite length_insert.
    destruct (keep_probing e x); [|by intros [= ->]].
    destruct (probe_next (length arr) c off). apply IH.
Qed.

Lemma find_position_loop_insert_other fuel arr y pos e e' :
  arr !! pos = Some e →
  keep_probing e y = false ∨ keep_probing e' y = keep_probing e y →
  ∀ c off j,
  find_position_loop fuel arr y c off = Ok j → j ≠ pos →
  find_position_loop fuel (<[pos:=e']> arr) y c off = Ok j.
Proof.
  intros Hpos Hkeep. induction fuel as [|fuel IH]; intros c off j; [done|].
  cbn [find_position_loop]. unfold at_.
  destruct (arr !! c) as [e0|] eqn:Hc; cbn [bind]; [|done].
  destruct (decide (c = pos)) as [->|Hne].
  - rewrite list_lookup_insert_eq by (by eapply lookup_lt_Some).
    cbn [bind]. rewrite length_insert. rewrite Hpos in Hc. injection Hc as <-.
    destruct Hkeep as [->| ->]; [by intros [= ->]|].
    destruct (keep_probing e y); [|by intros [= ->]].
    destruct (probe_next (length arr) pos off). apply IH.
  - rewrite list_lookup_insert_ne, Hc by done. cbn [bind]. rewrite length_insert.
    destruct (keep_probing e0 y); [|done].
    destruct (probe_next (length arr) c off). apply IH.
Qed.

Lemma find_position_stop t x pos :
  find_position t x = Ok pos →
  ∃ e, array t !! pos = Some e ∧ (type e = kEmpty ∨ element e = x).
Proof.
  intros (_ & e & _ & He & Hstop%keep_probing_false & _)%find_position_Ok. by exists e.
Qed.

Lemma find_position_written_self t x pos (k : K) :
  find_position t x = Ok pos → find_position (written t pos x k) x = Ok pos.
Proof.
  unfold find_position, hash, written. cbn [array]. rewrite length_insert.
  case_decide; [done|]. cbn [bind]. apply find_position_loop_insert_stop.
  apply keep_probing_false. by right.
Qed.

Lemma find_position_written_other t y pos (k : K) j :
  find_position t (convert k) = Ok pos →
  find_position t y = Ok j → j ≠ pos →
  find_position (written t pos (convert k) k) y = Ok j.
Proof.
  intros (e & He & Hstop)%find_position_stop.
  unfold find_position, hash, written. cbn [array]. rewrite length_insert.
  case_decide; [done|]. cbn [bind]. apply find_position_loop_insert_other with e; [done|].
  destruct (decide (type e = kEmpty)) as [Hempty|Hused].
  - left. apply keep_probing_false. by left.
  - right. destruct Hstop as [?|Hel]; [done|]. unfold keep_probing, entry_ctor.
    cbn [type element]. rewrite Hel.
    by rewrite !(bool_decide_eq_true_2 (_ ≠ kEmpty)) by done.
Qed.

(** *** Tables used as sets

    The lemmas on [rehash] in this part are of the re-insertion as it is
    modelled, with the entry's own key. *)

Lemma entry_eta e : e = entry_ctor (element e) (key e) (type e).
Proof. by destruct e. Qed.

Lemma stored_lookup t i e :
  array t !! i = Some e → type e = kActive → stored t (element e) (key e).
Proof. intros He Hact. exists i. by rewrite He, (entry_eta e) at 1; rewrite Hact. Qed.

Lemma first_stop_distinct t : first_stop t → distinct_active (array t).
Proof.
  intros Hfirst i j ei ej Hi Hj Hacti Hactj Heq.
  pose proof (Hfirst i ei Hi ltac:(congruence)) as Hpi.
  pose proof (Hfirst j ej Hj ltac:(congruence)) as Hpj.
  rewrite Heq in Hpi. congruence.
Qed.

Lemma well_probed_stored t x k0 :
  well_probed t → stored t x k0 →
  ∃ i, find_position t x = Ok i ∧ array t !! i = Some (entry_ctor x k0 kActive).
Proof.
  intros [_ Hfirst] [i Hi]. exists i. split; [|done].
  by apply (Hfirst i _ Hi).
Qed.

Lemma written_well_probed t pos (k : K) e :
  well_probed t → find_position t (convert k) = Ok pos →
  array t !! pos = Some e →
  well_probed (written t pos (convert k) k).
Proof.
  intros [Hset Hfirst] Hpos He. pose proof (lookup_lt_Some _ _ _ He) as Hlt. split.
  - intros i ei. unfold written. cbn [array].
    destruct (decide (pos = i)) as [<-|Hne].
    + rewrite list_lookup_insert_eq by done. by intros [= <-].
    + rewrite list_lookup_insert_ne by done. apply Hset.
  - intros i ei. unfold written at 1. cbn [array].
    destruct (decide (pos = i)) as [<-|Hne].
    + rewrite list_lookup_insert_eq by done. intros [= <-] _.
      by apply find_position_written_self.
    + rewrite list_lookup_insert_ne by done. intros Hi Hused.
      apply find_position_written_other; [done| |done]. by apply (Hfirst i).
Qed.

Lemma cleared_well_probed t n : well_probed (cleared t n) ∧ ∀ x k0, ¬ stored (cleared t n) x k0.
Proof.
  assert (∀ i e, array (cleared t n) !! i = Some e → type e = kEmpty) as Hempty.
  { intros i e. unfold cleared. cbn [array]. rewrite list_lookup_fmap.
    destruct (resize n entry_default (array t) !! i); [|done]. by intros [= <-]. }
  split; [split|].
  - intros i e He Hact. apply Hempty in He. congruence.
  - intros i e He Hused. by apply Hempty in He.
  - intros x k0 [i Hi]. by apply Hempty in Hi.
Qed.

Lemma rehash_loop_set ins :
  (∀ s v (k : K) b s', well_probed s → convert k = v →
     ins v k s = Ok (b, s') → insert_set_post s v k s') →
  ∀ l done s t',
  distinct_active (done ++ l) →
  (∀ e, e ∈ done ++ l → type e = kActive → element e = convert (key e)) →
  well_probed s →
  (∀ e, e ∈ done → type e = kActive → stored s (element e) (key e)) →
  (∀ x k0, stored s x k0 →
     ∃ e, e ∈ done ∧ type e = kActive ∧ element e = x ∧ key e = k0) →
  rehash_loop ins l s = Ok t' →
  well_probed t' ∧
  (∀ e, e ∈ done ++ l → type e = kActive → stored t' (element e) (key e)) ∧
  (∀ x k0, stored t' x k0 →
     ∃ e, e ∈ done ++ l ∧ type e = kActive ∧ element e = x ∧ key e = k0).
Proof.
  intros Hins. induction l as [|e l IH]; intros done s t' Hdist Hset Hok Hkept Hfrom;
    cbn [rehash_loop].
  - intros [= <-]. rewrite app_nil_r. done.
  - rewrite (cons_middle e done l), app_assoc in Hdist, Hset |- *.
    case_bool_decide as Hact.
    + destruct (ins (element e) (key e) s) as [[b s1]| | |] eqn:Hrun; cbn [bind]; [|done..].
      assert (element e = convert (key e)) as Hconv.
      { apply Hset; [|done]. apply elem_of_app. left. apply elem_of_app. right.
        by apply list_elem_of_singleton. }
      destruct (Hins _ _ _ _ _ Hok (eq_sym Hconv) Hrun) as (Hok1 & Hkeep & Hnew & Hmine).
      apply IH; [done..| |].
      * intros e0 [He0| ->%list_elem_of_singleton]%elem_of_app Hact0.
        { by apply Hkeep, Hkept. }
        destruct Hmine as [?|(k' & Hk' & Hst)]; [done|].
        destruct (Hfrom _ _ Hst) as (e1 & He1 & Hact1 & Hel1 & Hkey1).
        apply list_elem_of_lookup_1 in He1 as [i Hi].
        pose proof (lookup_lt_Some _ _ _ Hi) as Hlt.
        assert (i = length done); [|lia].
        apply (Hdist i (length done) e1 e); [| |done..].
        -- rewrite <- app_assoc. by apply lookup_app_l_Some.
        -- rewrite <- app_assoc. cbn. by rewrite list_lookup_middle.
      * intros x k0 [Hold|[-> ->]]%Hnew.
        -- destruct (Hfrom _ _ Hold) as (e1 & He1 & ?). exists e1. split; [|done].
           apply elem_of_app. by left.
        -- exists e. split_and!; [|done..]. apply elem_of_app. right.
           by apply list_elem_of_singleton.
    + apply IH; [done..| |].
      * intros e0 [He0| ->%list_elem_of_singleton]%elem_of_app Hact0; [|done].
        by apply Hkept.
      * intros x k0 Hst. destruct (Hfrom _ _ Hst) as (e1 & He1 & ?). exists e1.
        split; [|done]. apply elem_of_app. by left.
Qed.

Lemma rehash_with_set ins fuel t t' :
  (∀ s v (k : K) b s', well_probed s → convert k = v →
     ins v k s = Ok (b, s') → insert_set_post s v k s') →
  well_probed t → rehash_with ins fuel t = Ok t' →
  well_probed t' ∧ ∀ x k0, stored t x k0 ↔ stored t' x k0.
Proof.
  intros Hins [Hset Hfirst] (n & _ & Hloop)%rehash_with_Ok.
  destruct (cleared_well_probed t (Z.to_nat n)) as [Hok Hnone].
  destruct (rehash_loop_set ins Hins (array t) [] (cleared t (Z.to_nat n)) t')
    as (Hok' & Hkept & Hfrom); cbn [app]; try done.
  - by apply first_stop_distinct.
  - intros e [i Hi]%list_elem_of_lookup_1. by apply (Hset i).
  - intros e He. by apply not_elem_of_nil in He.
  - intros x k0 Hst. by apply Hnone in Hst.
  - split; [done|]. intros x k0. split.
    + intros [i Hi]. apply (Hkept (entry_ctor x k0 kActive)); [|done].
      by eapply list_elem_of_lookup_2.
    + intros (e & [i Hi]%list_elem_of_lookup_1 & Hact & <- & <-)%Hfrom.
      by eapply stored_lookup.
Qed.

Lemma insert_set fuel : ∀ t v (k : K) b t',
  well_probed t → convert k = v → insert fuel t v k = Ok (b, t') →
  insert_set_post t v k t'.
Proof.
  induction fuel as [|fuel IH]; intros t v k b t' Hok Hconv Hrun; [done|].
  apply insert_position_and_result in Hrun as (pos & e & Hpos & He & -> & Hres).
  pose proof Hpos as (e' & He' & Hstop)%find_position_stop.
  rewrite He in He'. injection He' as <-. rewrite Hconv in Hstop.
  destruct (bool_decide (type e = kActive)) eqn:Hact; cbn [negb] in Hres.
  - apply bool_decide_eq_true in Hact.
    destruct Hstop as [?|Hel]; [congruence|].
    case_bool_decide as Hkey.
    + assert (t' = t) as ->.
      { subst t'. destruct t as [arr cs]. cbn [array current_size] in *. f_equal.
        apply list_eq. intros j. destruct (decide (pos = j)) as [<-|].
        - rewrite list_lookup_alter_eq, He. cbn. f_equal. destruct e. cbn in *. by subst.
        - by rewrite list_lookup_alter_ne. }
      split_and!; [done|done|by left|]. left. exists pos.
      rewrite He, (entry_eta e). by rewrite Hel, Hkey, Hact.
    + subst t'. split_and!; [done|done|by left|]. right. exists (key e).
      split; [done|]. rewrite <- Hel. by eapply stored_lookup.
  - apply bool_decide_eq_false in Hact. subst v.
    pose proof (written_well_probed t pos k e Hok Hpos He) as Hok1.
    pose proof (lookup_lt_Some _ _ _ He) as Hlt.
    assert (∀ x k0, stored t x k0 → stored (written t pos (convert k) k) x k0) as Hkeep.
    { intros x k0 [i Hi]. exists i. unfold written. cbn [array].
      rewrite list_lookup_insert_ne; [done|]. intros <-. rewrite He in Hi.
      injection Hi as ->. done. }
    assert (∀ x k0, stored (written t pos (convert k) k) x k0 →
              stored t x k0 ∨ (x = convert k ∧ k0 = k)) as Hnew.
    { intros x k0 [i Hi]. unfold written in Hi. cbn [array] in Hi.
      destruct (decide (pos = i)) as [<-|].
      - rewrite list_lookup_insert_eq in Hi by done. injection Hi as -> ->. by right.
      - rewrite list_lookup_insert_ne in Hi by done. left. by exists i. }
    assert (stored (written t pos (convert k) k) (convert k) k) as Hmine.
    { exists pos. unfold written. cbn [array]. by rewrite list_lookup_insert_eq. }
    case_bool_decide as Hfull.
    + cbn [pred] in Hres.
      destruct (rehash_with_set _ _ _ _ (λ s v' k' b' s', IH s v' k' b' s') Hok1 Hres)
        as (Hok' & Hiff).
      split_and!; [done| | |].
      * intros x k0 Hst. by apply Hiff, Hkeep.
      * intros x k0 Hst. by apply Hnew, Hiff.
      * left. by apply Hiff.
    + subst t'. split_and!; [done..|by left].
Qed.

Lemma remove_well_probed t x b t' :
  well_probed t → remove t x = Ok (b, t') → well_probed t'.
Proof.
  intros [Hset Hfirst] (pos & e & Hpos & He & -> & ->)%remove_Ok.
  case_bool_decide as Hact; [|done]. split.
  - intros i ei. cbn [array]. destruct (decide (pos = i)) as [<-|].
    + rewrite list_lookup_alter_eq, He. by intros [= <-].
    + rewrite list_lookup_alter_ne by done. apply Hset.
  - intros i ei. cbn [array]. rewrite (find_position_mark_deleted t _ pos e He Hact).
    destruct (decide (pos = i)) as [<-|].
    + rewrite list_lookup_alter_eq, He. intros [= <-] _. cbn [set_type element].
      apply (Hfirst pos e He). congruence.
    + rewrite list_lookup_alter_ne by done. apply Hfirst.
Qed.

Lemma all_empty_well_probed t :
  Forall (λ e, type e = kEmpty) (array t) → well_probed t.
Proof.
  rewrite Forall_lookup. intros Hempty. split.
  - intros i e He Hact. apply Hempty in He. congruence.
  - intros i e He Hused. by apply Hempty in He.
Qed.

Lemma make_empty_all_empty t : Forall (λ e, type e = kEmpty) (array (make_empty t)).
Proof. unfold make_empty. cbn [array]. by apply Forall_fmap, Forall_true. Qed.

Lemma ctor_all_empty fuel size t :
  hash_table_ctor fuel size = Ok t → Forall (λ e, type e = kEmpty) (array t).
Proof.
  unfold hash_table_ctor. destruct (next_prime fuel size) as [n| | |]; cbn [bind]; [|done..].
  destruct (n <? 0)%Z; [done|]. intros [= <-]. apply make_empty_all_empty.
Qed.

Lemma reachable_set_well_probed t : reachable_set t → well_probed t.
Proof.
  induction 1 as [fuel size t Hrun|t _ IH|fuel t v k b t' _ IH Hconv _ Hrun
                 |t v b t' _ IH Hrun|t k b t' _ IH Hrun].
  - by eapply all_empty_well_probed, ctor_all_empty.
  - apply all_empty_well_probed, make_empty_all_empty.
  - by eapply insert_set.
  - by eapply remove_well_probed.
  - by eapply remove_well_probed.
Qed.

Lemma reachable_set_reachable t : reachable_set t → reachable t.
Proof.
  induction 1; [by eapply reachable_ctor|by apply reachable_make_empty
               |by eapply reachable_insert|by eapply reachable_remove
               |by eapply reachable_remove_key].
Qed.

(** *** What [insert] and [rehash] keep, whatever the keys *)

(** Capacity and count only grow. *)
Lemma insert_grows fuel : ∀ t v (k : K) b t' len0 c0,
  len0 ≤ length (array t) → c0 ≤ current_size t →
  insert fuel t v k = Ok (b, t') →
  len0 ≤ length (array t') ∧ c0 ≤ current_size t'.
Proof.
  induction fuel as [|fuel IH]; intros t v k b t' len0 c0 Hlen Hcs Hrun; [done|].
  apply insert_position_and_result in Hrun as (pos & e & Hpos & He & -> & Hres).
  destruct (bool_decide (type e = kActive)); cbn [negb] in Hres.
  - subst t'. case_bool_decide; cbn [array current_size]; rewrite ?length_alter; done.
  - assert (length (array (written t pos v k)) = length (array t)) as Hlen1
      by apply length_insert.
    case_bool_decide as Hfull.
    + cbn [pred] in Hres. apply rehash_with_Ok in Hres as (n & Hn & Hloop).
      apply next_prime_Ok in Hn as (_ & Hge & _).
      eapply (rehash_loop_inv (λ s, len0 ≤ length (array s) ∧ c0 ≤ current_size s));
        [| |exact Hloop].
      * intros v' k' s b' s' [? ?] Hrun'. by eapply IH.
      * unfold cleared. cbn [array current_size].
        rewrite length_fmap, length_resize. unfold written. cbn [current_size].
        rewrite Hlen1 in Hge. lia.
    + subst t'. unfold written. cbn [array current_size]. rewrite length_insert. lia.
Qed.

(** A property of the capacity alone that every prime search
    re-establishes is kept. *)
Lemma insert_length_inv (P : nat → Prop) fuel : 
  (∀ fuel' (len : nat) n, next_prime fuel' (2 * Z.of_nat len) = Ok n → P (Z.to_nat n)) →
  ∀ t v (k : K) b t',
  P (length (array t)) → insert fuel t v k = Ok (b, t') → P (length (array t')).
Proof.
  intros Hnext. induction fuel as [|fuel IH]; intros t v k b t' HP Hrun; [done|].
  apply insert_position_and_result in Hrun as (pos & e & Hpos & He & -> & Hres).
  destruct (bool_decide (type e = kActive)); cbn [negb] in Hres.
  - subst t'. destruct (bool_decide (key e = k)); cbn [array]; [|done].
    by rewrite length_alter.
  - case_bool_decide as Hfull.
    + cbn [pred] in Hres. apply rehash_with_Ok in Hres as (n & Hn & Hloop).
      eapply (rehash_loop_inv (λ s, P (length (array s)))); [| |exact Hloop].
      * intros v' k' s b' s' HPs Hrun'. exact (IH s v' k' b' s' HPs Hrun').
      * unfold cleared. cbn [array]. rewrite length_fmap, length_resize.
        eapply Hnext. unfold written in Hn. cbn [array] in Hn.
        rewrite length_insert in Hn. exact Hn.
    + subst t'. unfold written. cbn [array]. by rewrite length_insert.
Qed.

Lemma insert_no_deleted fuel : ∀ t v (k : K) b t',
  Forall (λ e, type e ≠ kDeleted) (array t) → insert fuel t v k = Ok (b, t') →
  Forall (λ e, type e ≠ kDeleted) (array t').
Proof.
  induction fuel as [|fuel IH]; intros t v k b t' Hnone Hrun; [done|].
  apply insert_position_and_result in Hrun as (pos & e & Hpos & He & -> & Hres).
  destruct (bool_decide (type e = kActive)); cbn [negb] in Hres.
  - subst t'. case_bool_decide; [|done]. cbn [array].
    rewrite Forall_lookup in Hnone |- *. intros i ei.
    destruct (decide (pos = i)) as [<-|].
    + rewrite list_lookup_alter_eq, He. intros [= <-]. by apply (Hnone pos e).
    + rewrite list_lookup_alter_ne by done. apply Hnone.
  - assert (Forall (λ e, type e ≠ kDeleted) (array (written t pos v k))) as Hnone1.
    { unfold written. cbn [array]. rewrite Forall_lookup in Hnone |- *. intros i ei.
      destruct (decide (pos = i)) as [<-|].
      - rewrite list_lookup_insert_eq by (by eapply lookup_lt_Some). by intros [= <-].
      - rewrite list_lookup_insert_ne by done. apply Hnone. }
    case_bool_decide as Hfull; [|by subst t'].
    cbn [pred] in Hres. apply rehash_with_Ok in Hres as (n & Hn & Hloop).
    eapply (rehash_loop_inv (λ s, Forall (λ e, type e ≠ kDeleted) (array s)));
      [| |exact Hloop].
    * intros v' k' s b' s' Hs Hrun'. exact (IH s v' k' b' s' Hs Hrun').
    * unfold cleared. cbn [array]. by apply Forall_fmap, Forall_true.
Qed.

(** A slot written into a place that was not Active hides no item that
    was found before. *)
Lemma find_position_loop_written_found fuel arr x pos e e' :
  arr !! pos = Some e → type e ≠ kActive → type e' = kActive →
  ∀ c off p ep,
  find_position_loop fuel arr x c off = Ok p →
  arr !! p = Some ep → type ep = kActive →
  ∃ p' ep', find_position_loop fuel (<[pos:=e']> arr) x c off = Ok p' ∧
    <[pos:=e']> arr !! p' = Some ep' ∧ type ep' = kActive ∧ element ep' = x.
Proof.
  intros Hpos Hfree Hact'. induction fuel as [|fuel IH]; intros c off p ep; [done|].
  cbn [find_position_loop]. unfold at_.
  destruct (arr !! c) as [e0|] eqn:Hc; cbn [bind]; [|done].
  pose proof (lookup_lt_Some _ _ _ Hpos) as Hlt.
  destruct (decide (c = pos)) as [->|Hne].
  - rewrite list_lookup_insert_eq by done. cbn [bind]. rewrite length_insert.
    rewrite Hpos in Hc. injection Hc as <-.
    destruct (keep_probing e x) eqn:Hkeep.
    + destruct (keep_probing e' x) eqn:Hkeep'.
      * destruct (probe_next (length arr) pos off). apply IH.
      * intros _ _ _. exists pos, e'. rewrite list_lookup_insert_eq by done.
        split_and!; [done..|]. apply keep_probing_false in Hkeep' as [?|?]; [congruence|done].
    + intros [= <-] Hp. rewrite Hpos in Hp. injection Hp as <-. done.
  - rewrite list_lookup_insert_ne, Hc by done. cbn [bind]. rewrite length_insert.
    destruct (keep_probing e0 x) eqn:Hkeep.
    + destruct (probe_next (length arr) c off). apply IH.
    + intros [= <-] Hp Hactp. exists c, ep. rewrite list_lookup_insert_ne by done.
      split_and!; [done..|]. rewrite Hc in Hp. injection Hp as <-.
      apply keep_probing_false in Hkeep as [?|?]; [congruence|done].
Qed.

Lemma contains_Ok_true t x :
  contains t x = Ok true ↔
  ∃ pos e, find_position t x = Ok pos ∧ array t !! pos = Some e ∧ type e = kActive.
Proof.
  unfold contains, is_active, at_. split.
  - destruct (find_position t x) as [pos| | |]; cbn [bind]; [|done..].
    destruct (array t !! pos) as [e|] eqn:He; cbn [bind]; [|done].
    intros [= Hact%bool_decide_eq_true]. by exists pos, e.
  - intros (pos & e & -> & He & Hact). cbn [bind]. rewrite He. cbn [bind].
    by rewrite bool_decide_eq_true_2.
Qed.

Lemma written_keeps_found t pos v (k : K) e x :
  array t !! pos = Some e → type e ≠ kActive →
  contains t x = Ok true → contains (written t pos v k) x = Ok true.
Proof.
  intros He Hfree (p & ep & Hp & Hep & Hact)%contains_Ok_true.
  apply contains_Ok_true. revert Hp. unfold find_position, hash, written.
  cbn [array]. rewrite length_insert. case_decide; [done|]. cbn [bind]. intros Hp.
  destruct (find_position_loop_written_found _ _ x pos e (entry_ctor v k kActive)
              He Hfree eq_refl _ _ _ _ Hp Hep Hact) as (p' & ep' & ? & ? & ? & _).
  by exists p', ep'.
Qed.

(** *** Tables in which every slot is Empty *)

Lemma all_empty_find_position t x :
  Forall (λ e, type e = kEmpty) (array t) → array t ≠ [] →
  find_position t x = Ok (hash_object x mod length (array t)).
Proof.
  intros Hempty Hne. assert (0 < length (array t)) by (destruct (array t); [done|cbn; lia]).
  unfold find_position, hash. rewrite decide_False by lia. cbn [bind].
  replace (length (array t) + 2) with (S (length (array t) + 1)) by lia.
  cbn [find_position_loop]. unfold at_.
  destruct (lookup_lt_is_Some_2 (array t) (hash_object x mod length (array t))) as [e He].
  { apply Nat.mod_upper_bound. lia. }
  rewrite He. cbn [bind]. rewrite Forall_lookup in Hempty. apply Hempty in He.
  unfold keep_probing. rewrite He. by rewrite bool_decide_eq_false_2 by (by intros ?).
Qed.

Lemma all_empty_lookups t x :
  Forall (λ e, type e = kEmpty) (array t) → array t ≠ [] →
  contains t x = Ok false ∧ remove t x = Ok (false, t) ∧ get_value t x = LengthError.
Proof.
  intros Hempty Hne. pose proof (all_empty_find_position t x Hempty Hne) as Hpos.
  destruct (lookup_lt_is_Some_2 (array t) (hash_object x mod length (array t))) as [e He].
  { by eapply find_position_lt. }
  pose proof He as Hty. rewrite Forall_lookup in Hempty. apply Hempty in Hty.
  split_and!.
  - unfold contains, is_active, at_. rewrite Hpos. cbn [bind]. rewrite He. cbn [bind].
    by rewrite bool_decide_eq_false_2 by congruence.
  - apply remove_Ok. eexists _, e. split; [done|]. split; [done|].
    split; [|done]. by rewrite bool_decide_eq_false_2 by congruence.
  - rewrite (get_value_spec t x _ e Hpos He). by rewrite bool_decide_eq_true_2.
Qed.

Lemma all_empty_get_key t (k : K) :
  Forall (λ e, type e = kEmpty) (array t) → array t ≠ [] → get_key t k = LengthError.
Proof.
  intros Hempty Hne. pose proof (all_empty_find_position t (convert k) Hempty Hne) as Hpos.
  destruct (lookup_lt_is_Some_2 (array t) (hash_object (convert k) mod length (array t)))
    as [e He]; [by eapply find_position_lt|].
  rewrite (get_key_spec t k _ e Hpos He). rewrite Forall_lookup in Hempty.
  apply Hempty in He. by rewrite bool_decide_eq_true_2.
Qed.

Lemma ctor_nonempty fuel size t : hash_table_ctor fuel size = Ok t → array t ≠ [].
Proof.
  intros (Hp%Z.prime_ge_2 & _)%ctor_table_ok. destruct (array t); [cbn in Hp; lia|done].
Qed.

(** *** Lookups, in general *)

Lemma get_value_stored t x pos (k0 : K) :
  find_position t x = Ok pos → array t !! pos = Some (entry_ctor x k0 kActive) →
  contains t x = Ok true ∧ get_value t x = Ok k0.
Proof.
  intros Hpos He. split.
  - apply contains_Ok_true. by eexists _, _.
  - by rewrite (get_value_spec t x pos _ Hpos He).
Qed.

Lemma contains_stored t x :
  contains t x = Ok true → ∃ k0, stored t x k0 ∧ get_value t x = Ok k0.
Proof.
  intros (pos & e & Hpos & He & Hact)%contains_Ok_true.
  pose proof Hpos as (e' & He' & Hstop)%find_position_stop.
  rewrite He in He'. injection He' as <-. destruct Hstop as [?|Hel]; [congruence|].
  exists (key e). split; [rewrite <- Hel; by eapply stored_lookup|].
  rewrite (get_value_spec t x pos e Hpos He). by rewrite bool_decide_eq_false_2 by congruence.
Qed.

Lemma well_probed_lookup t x (k0 : K) :
  well_probed t → stored t x k0 → contains t x = Ok true ∧ get_value t x = Ok k0.
Proof.
  intros Hok (i & Hpos & He)%well_probed_stored; [|done]. by eapply get_value_stored.
Qed.

(** *** The capacity *)

Lemma rehash_length_inv (P : nat → Prop) fuel t t' :
  (∀ fuel' (len : nat) n, next_prime fuel' (2 * Z.of_nat len) = Ok n → P (Z.to_nat n)) →
  rehash fuel t = Ok t' → P (length (array t')).
Proof.
  intros Hnext (n & Hn & Hloop)%rehash_with_Ok.
  eapply (rehash_loop_inv (λ s, P (length (array s)))); [| |exact Hloop].
  - intros v k s b s' HPs Hrun. exact (insert_length_inv P fuel Hnext s v k b s' HPs Hrun).
  - unfold cleared. cbn [array]. rewrite length_fmap, length_resize. by eapply Hnext.
Qed.

Lemma next_prime_odd_prime fuel (number n : Z) :
  next_prime fuel number = Ok n → (0 ≤ n)%Z →
  Z.prime (Z.of_nat (Z.to_nat n)) ∧ Nat.Odd (Z.to_nat n).
Proof.
  intros (Hp & _ & Hodd)%next_prime_Ok Hnn. rewrite Z2Nat.id by done.
  split; [by apply is_prime_sound|].
  apply odd_mod_2 in Hodd. pose proof (Z.div_mod n 2 ltac:(lia)).
  exists (Z.to_nat (n / 2)). lia.
Qed.

Lemma next_prime_double fuel (len : nat) n :
  next_prime fuel (2 * Z.of_nat len) = Ok n →
  Z.prime (Z.of_nat (Z.to_nat n)) ∧ Nat.Odd (Z.to_nat n).
Proof.
  intros Hn. eapply next_prime_odd_prime; [done|].
  apply next_prime_Ok in Hn as (_ & ? & _). lia.
Qed.

Lemma reachable_capacity t :
  reachable t → Z.prime (Z.of_nat (length (array t))) ∧ Nat.Odd (length (array t)).
Proof.
  set (P := λ n : nat, Z.prime (Z.of_nat n) ∧ Nat.Odd n).
  assert (∀ fuel' (len : nat) n,
            next_prime fuel' (2 * Z.of_nat len) = Ok n → P (Z.to_nat n)) as Hnext.
  { intros fuel' len n. apply next_prime_double. }
  induction 1 as [fuel size t Hrun|t _ IH|fuel t v k b t' _ IH Hrun
                 |fuel t v k b t' _ IH Hrun|t v b t' _ IH Hrun|t k b t' _ IH Hrun
                 |fuel t v k pos n _ IH Hpos Hact Hfull Hn].
  - revert Hrun. unfold hash_table_ctor.
    destruct (next_prime fuel size) as [n| | |] eqn:Hn; cbn [bind]; [|done..].
    destruct (Z.ltb_spec n 0); [done|]. intros [= <-]. unfold make_empty. cbn [array].
    rewrite length_fmap, length_replicate. by eapply next_prime_odd_prime.
  - unfold make_empty. cbn [array]. by rewrite length_fmap.
  - exact (insert_length_inv P fuel Hnext t v k b t' IH Hrun).
  - revert Hrun. unfold insert_move, is_active, at_.
    destruct (find_position t (convert k)) as [pos| | |]; cbn [bind]; [|done..].
    destruct (array t !! pos) as [e|]; cbn [bind]; [|done].
    destruct (bool_decide (type e = kActive)).
    + destruct (bool_decide (key e = k)); intros [= <- <-]; [|done].
      cbn [array]. by rewrite length_alter.
    + case_bool_decide.
      * destruct (rehash fuel _) as [t1| | |] eqn:Hre; cbn [bind]; [|done..].
        intros [= <- <-]. exact (rehash_length_inv P fuel _ _ Hnext Hre).
      * intros [= <- <-]. cbn [array]. by rewrite length_alter, !length_insert.
  - apply remove_Ok in Hrun as (pos & e & _ & _ & -> & ->).
    case_bool_decide; [|done]. cbn [array]. by rewrite length_alter.
  - apply remove_Ok in Hrun as (pos & e & _ & _ & -> & ->).
    case_bool_decide; [|done]. cbn [array]. by rewrite length_alter.
  - unfold cleared. cbn [array]. rewrite length_fmap, length_resize. by eapply Hnext.
Qed.

(** *** [is_prime] below zero, and the constructor *)

Lemma is_prime_below_zero (number : Z) :
  (number < 0)%Z → is_prime number = negb (Z.rem number 2 =? 0)%Z.
Proof.
  intros Hneg. unfold is_prime.
  destruct (Z.eqb_spec number 2); [lia|]. destruct (Z.eqb_spec number 3); [lia|].
  destruct (Z.eqb_spec number 1); [lia|]. cbn [orb].
  destruct (Z.rem number 2 =? 0)%Z; [done|].
  by replace (Z.to_nat number) with 0 by lia.
Qed.

(** *** An [insert] that returns false, in set use *)

Lemma insert_false_same fuel t v (k : K) t' :
  convert k = v → insert fuel t v k = Ok (false, t') → t' = t.
Proof.
  intros Hconv (pos & e & Hpos & He & Hb & Hres)%insert_position_and_result.
  cbv iota in Hres. case_bool_decide as Hkey; [|done]. subst t'.
  pose proof Hpos as (e' & He' & Hstop)%find_position_stop.
  rewrite He in He'. injection He' as <-. rewrite Hconv in Hstop.
  assert (type e = kActive) as Hact.
  { destruct (decide (type e = kActive)); [done|].
    by rewrite bool_decide_eq_false_2 in Hb. }
  destruct Hstop as [?|Hel]; [congruence|].
  destruct t as [arr cs]. cbn [array current_size] in *. f_equal.
  apply list_eq. intros j. destruct (decide (pos = j)) as [<-|].
  - rewrite list_lookup_alter_eq, He. cbn. f_equal. destruct e. cbn in *. by subst.
  - by rewrite list_lookup_alter_ne.
Qed.

Lemma insert_found_false fuel t v (k : K) :
  contains t (convert k) = Ok true →
  ∃ t', insert (S fuel) t v k = Ok (false, t').
Proof.
  intros (pos & e & Hpos & He & Hact)%contains_Ok_true.
  rewrite (insert_S fuel t v k pos e Hpos He). rewrite bool_decide_eq_true_2 by done.
  case_bool_decide; by eexists.
Qed.

Lemma insert_true_not_found fuel t v (k : K) t' :
  insert fuel t v k = Ok (true, t') → contains t (convert k) ≠ Ok true.
Proof.
  destruct fuel as [|fuel]; [done|]. intros Hrun Hfound.
  destruct (insert_found_false fuel t v k Hfound) as [t'' Hrun']. congruence.
Qed.

End hash_table_more.

Section more_prime_facts.
Local Open Scope Z_scope.

(** X7: for a number from 0 up to, not including, 46339 * 46339 =
    2147302921 the loop of [is_prime] computes no product past [INT_MAX],
    and [is_prime] answers true exactly when the number is prime. *)
Theorem is_prime_iff_prime (number : Z) :
  0 ≤ number < 2147302921 →
  ∃ b, is_prime_int number = Ok b ∧ is_prime number = b ∧ (b = true ↔ Z.prime number).
Proof.
  intros [Hnn Hmax]. exists (is_prime number). split_and!.
  - by apply is_prime_int_agrees.
  - done.
  - split; [by apply is_prime_sound|apply is_prime_complete].
Qed.

(** X8: below zero [is_prime] answers true for every odd number and
    false for every even one. *)
Theorem is_prime_negative (number : Z) :
  number < 0 → is_prime number = true ↔ ¬ (2 | number).
Proof.
  intros Hneg. rewrite is_prime_below_zero by done.
  destruct (Z.eqb_spec (Z.rem number 2) 0) as [Hrem|Hrem]; cbn [negb].
  - split; [done|]. intros []. by apply Z.rem_divide.
  - split; [|done]. intros _ Hdiv. by apply Hrem, Z.rem_divide.
Qed.

(** X23: on a prime from 46339 * 46339 = 2147302921 up to [INT_MAX]
    (2147483647 is one) the loop of [is_prime] finds no divisor up to the
    counter 46339 and then computes 46341 * 46341, which is past
    [INT_MAX]: a signed overflow, undefined behaviour. *)
Theorem is_prime_overflows (number : Z) :
  Z.prime number → 2147302921 ≤ number ≤ int_max →
  is_prime_int number = Undefined.
Proof.
  intros Hp Hn. pose proof Hn as Hn'. unfold int_max in Hn'. unfold is_prime_int.
  destruct (Z.eqb_spec number 2); [lia|]. destruct (Z.eqb_spec number 3); [lia|].
  destruct (Z.eqb_spec number 1); [lia|]. cbn [orb].
  destruct (Z.eqb_spec (Z.rem number 2) 0) as [Hrem|_].
  - apply Z.rem_divide in Hrem; [|lia]. apply (Z.divide_prime_r _ _ Hp) in Hrem. lia.
  - apply is_prime_loop_int_overflow; [done|done|by exists 1|lia|lia].
Qed.

End more_prime_facts.

Section hash_table_extras.
Context {T K : Type} `{EqDecision T} `{EqDecision K}.
Context `{Hash T} `{Convertible K T} `{ValueInit T} `{ValueInit K}.

Implicit Types (t : hash_table (T:=T) (K:=K)) (e : entry (T:=T) (K:=K)) (x y : T).

(** X1: when [contains(x)] answers true, some slot holds [x] as Active
    with a key, and [get_value(x)] returns that key. *)
Theorem lookup_sound t x :
  contains t x = Ok true → ∃ k0 : K, stored t x k0 ∧ get_value t x = Ok k0.
Proof. apply contains_stored. Qed.

(** X2: [remove(y)] returns what [contains(y)] answers before it, and
    leaves the probe position, [contains] and [get_value] of every other
    item as they were. *)
Theorem remove_keeps_other_lookups t x y b t' :
  remove t y = Ok (b, t') →
  contains t y = Ok b ∧
  (x ≠ y →
   find_position t' x = find_position t x ∧
   contains t' x = contains t x ∧
   get_value t' x = get_value t x).
Proof.
  intros (pos & e & Hpos & He & -> & ->)%remove_Ok. split.
  { unfold contains, is_active, at_. rewrite Hpos. cbn [bind]. by rewrite He. }
  intros Hne. case_bool_decide as Hact; [|done].
  pose proof (find_position_mark_deleted t x pos e He Hact) as Hsame.
  split; [done|]. unfold contains, get_value. rewrite Hsame.
  destruct (find_position t x) as [p| | |] eqn:Hp; cbn [bind]; [|done..].
  assert (p ≠ pos) as Hp'.
  { intros ->. apply find_position_stop in Hp as (e1 & He1 & [?|?]),
      Hpos as (e2 & He2 & [?|?]); congruence. }
  unfold is_active, at_. cbn [array]. by rewrite list_lookup_alter_ne.
Qed.

(** X3: an [insert] that activates a slot without rehashing hides
    nothing: every item that [contains] found before is found after. *)
Theorem insert_keeps_found fuel t (v : T) (k : K) t' x :
  current_size t + 1 ≤ length (array t) / 2 →
  insert fuel t v k = Ok (true, t') →
  contains t x = Ok true → contains t' x = Ok true.
Proof.
  intros Hload (pos & e & Hpos & He & Hb & Hres)%insert_position_and_result Hfound.
  cbv iota in Hres. rewrite bool_decide_eq_false_2 in Hres by lia. subst t'.
  eapply written_keeps_found; [done| |done].
  intros Hact. by rewrite bool_decide_eq_true_2 in Hb.
Qed.

(** X4: in a table that the constructor has just returned nothing is
    found: [contains] answers false, [remove] returns false and leaves
    the table as it is, and [get_value] and [get_key] throw. *)
Theorem new_table_lookups fuel size t x (k : K) :
  hash_table_ctor fuel size = Ok t →
  contains t x = Ok false ∧ contains_key t k = Ok false ∧
  remove t x = Ok (false, t) ∧ remove_key t k = Ok (false, t) ∧
  get_value t x = LengthError ∧ get_key t k = LengthError.
Proof.
  intros Hrun. pose proof (ctor_all_empty _ _ _ Hrun) as Hempty.
  pose proof (ctor_nonempty _ _ _ Hrun) as Hne.
  destruct (all_empty_lookups t x Hempty Hne) as (? & ? & ?).
  destruct (all_empty_lookups t (convert k) Hempty Hne) as (? & ? & _).
  split_and!; [done..|]. by apply all_empty_get_key.
Qed.

(** X5: [make_empty] keeps the capacity, sets [current_size] to zero,
    and leaves a table in which nothing is found. *)
Theorem make_empty_lookups t x (k : K) :
  array t ≠ [] →
  length (array (make_empty t)) = length (array t) ∧
  current_size (make_empty t) = 0 ∧
  contains (make_empty t) x = Ok false ∧
  remove (make_empty t) x = Ok (false, make_empty t) ∧
  get_value (make_empty t) x = LengthError ∧
  get_key (make_empty t) k = LengthError.
Proof.
  intros Hne. pose proof (make_empty_all_empty t) as Hempty.
  assert (array (make_empty t) ≠ []) as Hne'.
  { unfold make_empty. cbn [array]. by destruct (array t). }
  destruct (all_empty_lookups (make_empty t) x Hempty Hne') as (? & ? & ?).
  split_and!; [|done..|by apply all_empty_get_key].
  unfold make_empty. cbn [array]. apply length_fmap.
Qed.

(** X6: constructing with a negative size throws [length_error]:
    [next_prime] returns a negative odd number at once, [is_prime]
    finding no odd divisor of it, and the vector cannot hold that many
    entries. *)
Theorem ctor_negative_size fuel (size : Z) :
  (size < 0)%Z →
  hash_table_ctor (T:=T) (K:=K) (S fuel) size = LengthError.
Proof.
  intros Hneg. unfold hash_table_ctor, next_prime. cbn [next_prime_loop].
  destruct (Z.eqb_spec (Z.rem size 2) 0) as [Hrem|Hrem].
  - assert (size + 1 < 0)%Z as Hneg'.
    { destruct (decide (size = -1)%Z) as [->|]; [done|lia]. }
    rewrite (is_prime_below_zero _ Hneg').
    destruct (Z.eqb_spec (Z.rem (size + 1) 2) 0) as [Hrem'|_].
    + apply Z.rem_divide in Hrem as [q Hq]; [|lia].
      apply Z.rem_divide in Hrem' as [q' Hq']; [|lia]. lia.
    + cbn [negb bind]. by destruct (Z.ltb_spec (size + 1) 0); [|lia].
  - rewrite (is_prime_below_zero _ Hneg).
    destruct (Z.eqb_spec (Z.rem size 2) 0); [done|].
    cbn [negb bind]. by destruct (Z.ltb_spec size 0); [|lia].
Qed.

(** X9: every observable table has a prime, odd capacity. *)
Theorem capacity_prime_odd t :
  reachable t → Z.prime (Z.of_nat (length (array t))) ∧ Nat.Odd (length (array t)).
Proof. apply reachable_capacity. Qed.

(** X10: [insert] never lowers the capacity or [current_size], and an
    [insert] that returns true has raised [current_size]. *)
Theorem insert_never_shrinks fuel t (v : T) (k : K) b t' :
  insert fuel t v k = Ok (b, t') →
  length (array t) ≤ length (array t') ∧
  current_size t ≤ current_size t' ∧
  (b = true → current_size t < current_size t').
Proof.
  intros Hrun.
  destruct (insert_grows fuel t v k b t' _ _ (le_n _) (le_n _) Hrun) as [Hlen Hcs].
  split_and!; [done..|]. intros ->.
  apply insert_position_and_result in Hrun as (pos & e & _ & _ & _ & Hres).
  cbv iota in Hres. cbn [pred] in Hres.
  case_bool_decide as Hfull.
  - apply rehash_with_Ok in Hres as (n & _ & Hloop).
    enough (S (current_size t) ≤ current_size t') by lia.
    eapply (rehash_loop_inv (λ s, S (current_size t) ≤ current_size s)); [| |exact Hloop].
    + intros v' k' s b' s' Hs Hrun'.
      by destruct (insert_grows _ _ _ _ _ s' 0 _ (Nat.le_0_l _) Hs Hrun').
    + unfold cleared, written. cbn [current_size]. lia.
  - subst t'. unfold written. cbn [current_size]. lia.
Qed.

(** X11: a [rehash] that returns has more than doubled the capacity,
    to a prime, and has not lowered [current_size]. *)
Theorem rehash_grows fuel t t' :
  rehash fuel t = Ok t' →
  2 * length (array t) + 1 ≤ length (array t') ∧
  Z.prime (Z.of_nat (length (array t'))) ∧
  current_size t ≤ current_size t'.
Proof.
  intros Hre. split_and!.
  - apply rehash_with_Ok in Hre as (n & (_ & Hge & Hodd)%next_prime_Ok & Hloop).
    assert (2 * Z.of_nat (length (array t)) + 1 ≤ n)%Z.
    { destruct (decide (n = 2 * Z.of_nat (length (array t)))%Z) as [->|]; [|lia].
      destruct Hodd. exists (Z.of_nat (length (array t))). lia. }
    eapply (rehash_loop_inv (λ s, 2 * length (array t) + 1 ≤ length (array s)));
      [| |exact Hloop].
    + intros v k s b s' Hs Hrun.
      by destruct (insert_grows _ _ _ _ _ s' _ 0 Hs (Nat.le_0_l _) Hrun).
    + unfold cleared. cbn [array]. rewrite length_fmap, length_resize. lia.
  - apply (rehash_length_inv (λ n, Z.prime (Z.of_nat n)) fuel t t'); [|done].
    intros fuel' len n Hn. by apply next_prime_double in Hn as [? _].
  - apply rehash_with_Ok in Hre as (n & _ & Hloop).
    eapply (rehash_loop_inv (λ s, current_size t ≤ current_size s)); [| |exact Hloop].
    + intros v k s b s' Hs Hrun.
      by destruct (insert_grows _ _ _ _ _ s' 0 _ (Nat.le_0_l _) Hs Hrun).
    + done.
Qed.

(** X12: after a [rehash] no slot is Deleted: the tombstones that
    [remove] left are gone. *)
Theorem rehash_reclaims_tombstones fuel t t' :
  rehash fuel t = Ok t' →
  Forall (λ e, type e ≠ kDeleted) (array t').
Proof.
  intros (n & _ & Hloop)%rehash_with_Ok.
  eapply (rehash_loop_inv (λ s, Forall (λ e, type e ≠ kDeleted) (array s)));
    [| |exact Hloop].
  - intros v k s b s' Hs Hrun. exact (insert_no_deleted fuel s v k b s' Hs Hrun).
  - unfold cleared. cbn [array]. by apply Forall_fmap, Forall_true.
Qed.

(** X13: the rvalue overload of [insert], on a slot that is not Active
    and without a rehash, stores the converted key as the element and
    a value-initialised key, and changes no other slot: the value it
    was given is not written, so a slot holds it afterwards only if
    the key converts to it or the slot held it before. [contains(key)]
    and [get_key(key)] then find the converted key. *)
Theorem insert_move_discards_value fuel t (v : T) (k : K) pos e :
  find_position t (convert k) = Ok pos → array t !! pos = Some e →
  type e ≠ kActive → current_size t + 1 ≤ length (array t) / 2 →
  ∃ t', insert_move fuel t v k = Ok (true, t') ∧
    array t' !! pos = Some (entry_ctor (convert k) value_init kActive) ∧
    (∀ j, j ≠ pos → array t' !! j = array t !! j) ∧
    (∀ j e', array t' !! j = Some e' → element e' = v →
       v = convert k ∨ array t !! j = Some e') ∧
    current_size t' = current_size t + 1 ∧
    contains_key t' k = Ok true ∧ get_key t' k = Ok (convert k).
Proof.
  intros Hpos He Hfree Hload. pose proof (lookup_lt_Some _ _ _ He) as Hlt.
  exists (written t pos (convert k) (value_init : K)).
  assert (find_position (written t pos (convert k) (value_init : K)) (convert k) = Ok pos)
    as Hpos' by by apply find_position_written_self.
  assert (array (written t pos (convert k) (value_init : K)) !! pos
          = Some (entry_ctor (convert k) (value_init : K) kActive)) as He'.
  { unfold written. cbn [array]. by rewrite list_lookup_insert_eq. }
  split_and!; [|done| | |done| |].
  - unfold insert_move, is_active, at_. rewrite Hpos. cbn [bind]. rewrite He. cbn [bind].
    rewrite bool_decide_eq_false_2 by done. rewrite insert_move_slot.
    cbn [array current_size]. rewrite length_insert.
    by rewrite bool_decide_eq_false_2 by lia.
  - intros j Hj. unfold written. cbn [array]. by rewrite list_lookup_insert_ne.
  - intros j e' Hj Hv. destruct (decide (j = pos)) as [->|Hne].
    + rewrite He' in Hj. injection Hj as <-. by left.
    + right. unfold written in Hj. cbn [array] in Hj.
      by rewrite list_lookup_insert_ne in Hj.
  - unfold contains_key. apply contains_Ok_true. by eexists _, _.
  - by rewrite (get_key_spec _ k pos _ Hpos' He').
Qed.

(** X14: removing a value and inserting it again under a key that
    converts to it puts the pair back into its old slot, with no other
    slot changed, and leaves [current_size] one higher than before the
    [remove]: the count is not the number of slots in use. *)
Theorem remove_then_insert_count fuel t x (k : K) t1 :
  remove t x = Ok (true, t1) → convert k = x →
  current_size t + 1 ≤ length (array t) / 2 →
  ∃ pos, find_position t x = Ok pos ∧
    insert (S fuel) t1 x k
    = Ok (true, {| array := <[pos:=entry_ctor x k kActive]> (array t);
                   current_size := current_size t + 1 |}) ∧
    occupied (<[pos:=entry_ctor x k kActive]> (array t)) = occupied (array t).
Proof.
  intros (pos & e & Hpos & He & Hb & ->)%remove_Ok <- Hload.
  symmetry in Hb. apply bool_decide_eq_true in Hb. exists pos. split; [done|].
  pose proof (lookup_lt_Some _ _ _ He) as Hlt. split.
  - rewrite (insert_S fuel _ _ _ pos (set_type kDeleted e)).
    + cbn [type set_type array current_size]. rewrite length_alter.
      rewrite bool_decide_eq_false_2 by done. rewrite bool_decide_eq_false_2 by lia.
      unfold written. cbn [array current_size]. do 3 f_equal.
      apply list_eq. intros j. destruct (decide (pos = j)) as [<-|].
      * by rewrite !list_lookup_insert_eq by (by rewrite ?length_alter).
      * by rewrite !list_lookup_insert_ne, list_lookup_alter_ne by done.
    + by rewrite (find_position_mark_deleted t _ pos e He Hb).
    + cbn [array]. by rewrite list_lookup_alter_eq, He.
  - pose proof (occupied_insert (array t) pos e (entry_ctor (convert k) k kActive) He) as Ho.
    unfold used in Ho. cbn [entry_ctor type] in Ho.
    rewrite Hb in Ho. rewrite !bool_decide_eq_true_2 in Ho by done. lia.
Qed.

(** The properties X15 to X21 are of a table used as a set within the
    load bound ([reachable_set]): built by the constructor,
    [make_empty], [remove] and calls of the [const &] [insert] with a
    key that converts to the value, none of which reaches [rehash]. *)

(** X15: in a table used as a set within the load bound every stored
    pair is found: for a pair held by an Active slot, [contains] and
    [contains(key)] answer true, [get_value] returns its key and
    [get_key] its value. *)
Theorem set_lookup_complete t x (k : K) :
  reachable_set t → stored t x k →
  contains t x = Ok true ∧ get_value t x = Ok k ∧
  contains_key t k = Ok true ∧ get_key t k = Ok x.
Proof.
  intros Hok%reachable_set_well_probed Hst.
  destruct (well_probed_stored t x k Hok Hst) as (i & Hpos & He).
  destruct (get_value_stored t x i k Hpos He) as [Hc Hg].
  assert (x = convert k) as Hconv by (by apply (proj1 Hok i _ He)).
  split_and!; [done|done| |].
  - unfold contains_key. by rewrite <- Hconv.
  - rewrite Hconv in Hpos. by rewrite (get_key_spec t k i _ Hpos He).
Qed.

(** X16: in a table used as a set within the load bound, after a
    [const &] [insert(value, key)] that does not reach [rehash],
    [contains(value)] is true; when it returned true
    [get_value(value)] is the key, and when it returned false the table
    is as it was. *)
Theorem set_insert_then_lookup fuel t (v : T) (k : K) b t' :
  reachable_set t → convert k = v →
  current_size t + 1 ≤ length (array t) / 2 →
  insert fuel t v k = Ok (b, t') →
  contains t' v = Ok true ∧
  if b then get_value t' v = Ok k else t' = t.
Proof.
  intros Hok%reachable_set_well_probed Hconv _ Hrun.
  destruct (insert_set fuel t v k b t' Hok Hconv Hrun) as (Hok' & Hkeep & _ & Hmine).
  destruct b.
  - destruct Hmine as [Hst|(k' & _ & Hst)]; [by apply well_probed_lookup|].
    destruct (insert_true_not_found _ _ _ _ _ Hrun). rewrite Hconv.
    by eapply well_probed_lookup.
  - pose proof (insert_false_same _ _ _ _ _ Hconv Hrun) as ->. split; [|done].
    destruct Hmine as [Hst|(k' & _ & Hst)]; by eapply well_probed_lookup.
Qed.

(** X17: in a table used as a set within the load bound a [const &]
    [insert] that does not reach [rehash] loses nothing: every pair
    that was stored is stored after it and is found by [contains] and
    [get_value]. *)
Theorem set_insert_keeps_entries fuel t (v : T) (k : K) b t' x (k0 : K) :
  reachable_set t → convert k = v →
  current_size t + 1 ≤ length (array t) / 2 →
  insert fuel t v k = Ok (b, t') →
  stored t x k0 →
  stored t' x k0 ∧ contains t' x = Ok true ∧ get_value t' x = Ok k0.
Proof.
  intros Hok%reachable_set_well_probed Hconv _ Hrun Hst.
  destruct (insert_set fuel t v k b t' Hok Hconv Hrun) as (Hok' & Hkeep & _ & _).
  split; [by apply Hkeep|]. by apply well_probed_lookup, Hkeep.
Qed.

(** X18: in a table used as a set within the load bound a [const &]
    [insert(value, key)] that does not reach [rehash] makes nothing
    but its own value appear: an item that [contains] finds after it
    is the value or was found before. *)
Theorem set_insert_adds_only_its_value fuel t (v : T) (k : K) b t' x :
  reachable_set t → convert k = v →
  current_size t + 1 ≤ length (array t) / 2 →
  insert fuel t v k = Ok (b, t') →
  contains t' x = Ok true → x = v ∨ contains t x = Ok true.
Proof.
  intros Hok%reachable_set_well_probed Hconv _ Hrun (k0 & Hst & _)%contains_stored.
  destruct (insert_set fuel t v k b t' Hok Hconv Hrun) as (_ & _ & Hnew & _).
  destruct (Hnew x k0 Hst) as [Hold|[-> _]]; [right|by left].
  by eapply well_probed_lookup.
Qed.

(** X19: in a table used as a set within the load bound, after a
    [const &] [insert] that does not reach [rehash], the same [insert]
    again returns false and changes nothing. *)
Theorem set_insert_twice fuel fuel' t (v : T) (k : K) b t' :
  reachable_set t → convert k = v →
  current_size t + 1 ≤ length (array t) / 2 →
  insert fuel t v k = Ok (b, t') →
  insert (S fuel') t' v k = Ok (false, t').
Proof.
  intros Hok%reachable_set_well_probed Hconv _ Hrun.
  destruct (insert_set fuel t v k b t' Hok Hconv Hrun) as (Hok' & _ & _ & Hmine).
  assert (contains t' (convert k) = Ok true) as Hfound.
  { rewrite Hconv. destruct Hmine as [Hst|(k' & _ & Hst)].
    - by eapply well_probed_lookup.
    - destruct b.
      + destruct (insert_true_not_found _ _ _ _ _ Hrun). rewrite Hconv.
        by eapply well_probed_lookup.
      + rewrite (insert_false_same _ _ _ _ _ Hconv Hrun). by eapply well_probed_lookup. }
  destruct (insert_found_false fuel' t' v k Hfound) as [t'' Hrun'].
  by rewrite Hrun', (insert_false_same _ _ _ _ _ Hconv Hrun').
Qed.

(** X20: in a table used as a set within the load bound no value is
    held by two Active slots. *)
Theorem set_values_distinct t i j e1 e2 :
  reachable_set t →
  array t !! i = Some e1 → array t !! j = Some e2 →
  type e1 = kActive → type e2 = kActive → element e1 = element e2 → i = j.
Proof.
  intros [_ Hfirst]%reachable_set_well_probed. by apply first_stop_distinct.
Qed.

(** X21: in a table used as a set within the load bound [remove(x)]
    takes the pair of value [x], and nothing else, out of the stored
    pairs. *)
Theorem set_remove_stored t x b t' y (k0 : K) :
  reachable_set t → remove t x = Ok (b, t') →
  stored t' y k0 ↔ stored t y k0 ∧ y ≠ x.
Proof.
  intros Hok%reachable_set_well_probed (pos & e & Hpos & He & -> & ->)%remove_Ok.
  case_bool_decide as Hact.
  - pose proof Hpos as (e' & He' & Hstop)%find_position_stop.
    rewrite He in He'. injection He' as <-. destruct Hstop as [?|Hel]; [congruence|].
    split.
    + intros [i Hi]. cbn [array] in Hi. destruct (decide (pos = i)) as [<-|Hne].
      * rewrite list_lookup_alter_eq, He in Hi. by injection Hi.
      * rewrite list_lookup_alter_ne in Hi by done. split; [by exists i|].
        intros ->. pose proof (proj2 Hok i _ Hi) as Hpos'. cbn in Hpos'.
        specialize (Hpos' ltac:(done)). congruence.
    + intros [[i Hi] Hne]. exists i. cbn [array].
      rewrite list_lookup_alter_ne; [done|]. intros <-. rewrite He in Hi.
      injection Hi as ->. by cbn in Hel.
  - split; [|by intros [? _]]. intros Hst. split; [done|]. intros ->.
    destruct (well_probed_stored t x k0 Hok Hst) as (i & Hpos' & Hi).
    rewrite Hpos in Hpos'. injection Hpos' as <-. rewrite He in Hi.
    injection Hi as ->. done.
Qed.

End hash_table_extras.

(** ** The driver *)

Lemma alphabet_letter (n : nat) :
  ∃ c, alphabet !! (n mod alphabet_length) = Some c.
Proof.
  apply lookup_lt_is_Some_2. change (length alphabet) with alphabet_length.
  apply Nat.mod_upper_bound. done.
Qed.

(** X22: [print_random_string] calls [rand] four times and returns
    fifteen characters, not three: each turn of its loop appends the
    string to itself before the new letter, so the four letters drawn
    from the alphabet come out as c0 c0 c1 c0 c0 c1 c2, the same seven
    again, and c3. *)
Theorem print_random_string_shape (rand : nat → nat) (calls : nat) :
  ∃ c0 c1 c2 c3,
    alphabet !! (rand calls mod alphabet_length) = Some c0 ∧
    alphabet !! (rand (calls + 1) mod alphabet_length) = Some c1 ∧
    alphabet !! (rand (calls + 2) mod alphabet_length) = Some c2 ∧
    alphabet !! (rand (calls + 3) mod alphabet_length) = Some c3 ∧
    print_random_string rand calls
    = Ok ([c0; c0; c1; c0; c0; c1; c2; c0; c0; c1; c0; c0; c1; c2; c3], calls + 4).
Proof.
  destruct (alphabet_letter (rand calls)) as [c0 H0].
  destruct (alphabet_letter (rand (calls + 1))) as [c1 H1].
  destruct (alphabet_letter (rand (calls + 2))) as [c2 H2].
  destruct (alphabet_letter (rand (calls + 3))) as [c3 H3].
  exists c0, c1, c2, c3. split_and!; [done..|].
  unfold print_random_string. change (rand_string_size + 1) with 4.
  cbn [print_random_string_loop]. rewrite H0.
  replace (S calls) with (calls + 1) by lia. rewrite H1.
  replace (S (calls + 1)) with (calls + 2) by lia. rewrite H2.
  replace (S (calls + 2)) with (calls + 3) by lia. rewrite H3.
  cbn [app]. do 2 f_equal. lia.
Qed.

(** ** The further properties on [hash_table<long, unsigned>] *)

Lemma table_10_reachable_set : reachable_set table_10.
Proof. apply (reachable_set_ctor 10 10). vm_compute. reflexivity. Qed.

Lemma table_7_reachable_set : reachable_set table_7.
Proof.
  apply (reachable_set_insert 10 table_10 7%Z 7 true);
    [exact table_10_reachable_set|reflexivity|vm_compute; lia|vm_compute; reflexivity].
Qed.

Lemma table_own_5_reachable_set : reachable_set table_own_5.
Proof.
  apply (reachable_set_insert 10
           (table_of (inserts 10 [(1%Z, 1); (2%Z, 2); (3%Z, 3); (4%Z, 4)] table_10))
           5%Z 5 true); [|reflexivity|vm_compute; lia|vm_compute; reflexivity].
  apply (reachable_set_insert 10
           (table_of (inserts 10 [(1%Z, 1); (2%Z, 2); (3%Z, 3)] table_10))
           4%Z 4 true); [|reflexivity|vm_compute; lia|vm_compute; reflexivity].
  apply (reachable_set_insert 10
           (table_of (inserts 10 [(1%Z, 1); (2%Z, 2)] table_10))
           3%Z 3 true); [|reflexivity|vm_compute; lia|vm_compute; reflexivity].
  apply (reachable_set_insert 10
           (table_of (inserts 10 [(1%Z, 1)] table_10))
           2%Z 2 true); [|reflexivity|vm_compute; lia|vm_compute; reflexivity].
  apply (reachable_set_insert 10 table_10 1%Z 1 true);
    [exact table_10_reachable_set|reflexivity|vm_compute; lia|vm_compute; reflexivity].
Qed.

Lemma is_prime_iff_prime_witness :
  (0 ≤ 7 < 2147302921)%Z
  ∧ ∃ b, is_prime_int 7 = Ok b ∧ is_prime 7 = b ∧ (b = true ↔ Z.prime 7).
Proof. split; [lia|]. apply (is_prime_iff_prime 7). lia. Defined.

Lemma is_prime_negative_witness :
  (-9 < 0)%Z ∧ (is_prime (-9) = true ↔ ¬ (2 | -9)%Z).
Proof. split; [lia|]. apply (is_prime_negative (-9)). lia. Defined.

Lemma is_prime_overflows_witness :
  Z.prime 2147483647 ∧ (2147302921 ≤ 2147483647 ≤ int_max)%Z
  ∧ is_prime_int 2147483647 = Undefined.
Proof.
  assert (2147302921 ≤ 2147483647 ≤ int_max)%Z as Hn by (unfold int_max; lia).
  split; [exact prime_2147483647|]. split; [exact Hn|].
  apply (is_prime_overflows 2147483647 prime_2147483647 Hn).
Defined.

Lemma lookup_sound_witness :
  contains table_7 7%Z = Ok true
  ∧ ∃ k0, stored table_7 7%Z k0 ∧ get_value table_7 7%Z = Ok k0.
Proof.
  split; [vm_compute; reflexivity|].
  apply (lookup_sound table_7 7%Z). vm_compute. reflexivity.
Defined.

Lemma remove_keeps_other_lookups_witness :
  remove table_own_5 2%Z = Ok (true, table_own_5_removed)
  ∧ contains table_own_5 2%Z = Ok true
  ∧ (3%Z ≠ 2%Z →
     find_position table_own_5_removed 3%Z = find_position table_own_5 3%Z ∧
     contains table_own_5_removed 3%Z = contains table_own_5 3%Z ∧
     get_value table_own_5_removed 3%Z = get_value table_own_5 3%Z).
Proof.
  split; [vm_compute; reflexivity|].
  apply (remove_keeps_other_lookups table_own_5 3%Z 2%Z true table_own_5_removed).
  vm_compute. reflexivity.
Defined.

Lemma insert_keeps_found_witness :
  current_size table_7 + 1 ≤ length (array table_7) / 2
  ∧ insert 1 table_7 5%Z 5 = Ok (true, table_7_5)
  ∧ contains table_7 7%Z = Ok true
  ∧ contains table_7_5 7%Z = Ok true.
Proof.
  split; [vm_compute; lia|]. split; [vm_compute; reflexivity|].
  split; [vm_compute; reflexivity|].
  apply (insert_keeps_found 1 table_7 5%Z 5 table_7_5 7%Z);
    [vm_compute; lia|vm_compute; reflexivity|vm_compute; reflexivity].
Defined.

Lemma new_table_lookups_witness :
  hash_table_ctor 10 10 = Ok table_10
  ∧ contains table_10 3%Z = Ok false ∧ contains_key table_10 3 = Ok false
  ∧ remove table_10 3%Z = Ok (false, table_10)
  ∧ remove_key table_10 3 = Ok (false, table_10)
  ∧ get_value table_10 3%Z = LengthError ∧ get_key table_10 3 = LengthError.
Proof.
  split; [vm_compute; reflexivity|].
  apply (new_table_lookups 10 10 table_10 3%Z 3). vm_compute. reflexivity.
Defined.

Lemma make_empty_lookups_witness :
  array table_7 ≠ []
  ∧ length (array (make_empty table_7)) = length (array table_7)
  ∧ current_size (make_empty table_7) = 0
  ∧ contains (make_empty table_7) 7%Z = Ok false
  ∧ remove (make_empty table_7) 7%Z = Ok (false, make_empty table_7)
  ∧ get_value (make_empty table_7) 7%Z = LengthError
  ∧ get_key (make_empty table_7) 7 = LengthError.
Proof.
  split; [vm_compute; discriminate|].
  apply (make_empty_lookups table_7 7%Z 7). vm_compute. discriminate.
Defined.

Lemma ctor_negative_size_witness :
  (-3 < 0)%Z ∧ hash_table_ctor (T:=Z) (K:=nat) 1 (-3) = LengthError.
Proof. split; [lia|]. apply (ctor_negative_size (T:=Z) (K:=nat) 0 (-3)). lia. Defined.

Lemma capacity_prime_odd_witness :
  reachable table_own_keys
  ∧ Z.prime (Z.of_nat (length (array table_own_keys)))
  ∧ Nat.Odd (length (array table_own_keys)).
Proof.
  assert (reachable table_own_keys) as Hreach.
  { apply (reachable_insert 10 table_own_5 6%Z 6 true); [|vm_compute; reflexivity].
    apply reachable_set_reachable. exact table_own_5_reachable_set. }
  split; [exact Hreach|]. apply (capacity_prime_odd table_own_keys Hreach).
Defined.

Lemma insert_never_shrinks_witness :
  insert 10 table_own_5 6%Z 6 = Ok (true, table_own_keys)
  ∧ length (array table_own_5) ≤ length (array table_own_keys)
  ∧ current_size table_own_5 ≤ current_size table_own_keys
  ∧ (true = true → current_size table_own_5 < current_size table_own_keys).
Proof.
  split; [vm_compute; reflexivity|].
  apply (insert_never_shrinks 10 table_own_5 6%Z 6 true table_own_keys).
  vm_compute. reflexivity.
Defined.

Lemma rehash_grows_witness :
  rehash 10 table_own_5_removed = Ok table_own_5_rehashed
  ∧ 2 * length (array table_own_5_removed) + 1 ≤ length (array table_own_5_rehashed)
  ∧ Z.prime (Z.of_nat (length (array table_own_5_rehashed)))
  ∧ current_size table_own_5_removed ≤ current_size table_own_5_rehashed.
Proof.
  split; [vm_compute; reflexivity|].
  apply (rehash_grows 10 table_own_5_removed table_own_5_rehashed).
  vm_compute. reflexivity.
Defined.

Lemma rehash_reclaims_tombstones_witness :
  rehash 10 table_own_5_removed = Ok table_own_5_rehashed
  ∧ Forall (λ e, type e ≠ kDeleted) (array table_own_5_rehashed).
Proof.
  split; [vm_compute; reflexivity|].
  apply (rehash_reclaims_tombstones 10 table_own_5_removed table_own_5_rehashed).
  vm_compute. reflexivity.
Defined.

Lemma insert_move_discards_value_witness :
  find_position table_10 (convert 1) = Ok 1
  ∧ array table_10 !! 1 = Some (Entry 0%Z 0 kEmpty)
  ∧ type (Entry 0%Z 0 kEmpty) ≠ kActive
  ∧ current_size table_10 + 1 ≤ length (array table_10) / 2
  ∧ ∃ t', insert_move 1 table_10 5%Z 1 = Ok (true, t') ∧
      array t' !! 1 = Some (entry_ctor (convert 1) value_init kActive) ∧
      (∀ j, j ≠ 1 → array t' !! j = array table_10 !! j) ∧
      (∀ j e', array t' !! j = Some e' → element e' = 5%Z →
         5%Z = convert 1 ∨ array table_10 !! j = Some e') ∧
      current_size t' = current_size table_10 + 1 ∧
      contains_key t' 1 = Ok true ∧ get_key t' 1 = Ok (convert 1).
Proof.
  split; [vm_compute; reflexivity|]. split; [vm_compute; reflexivity|].
  split; [discriminate|]. split; [vm_compute; lia|].
  apply (insert_move_discards_value 1 table_10 5%Z 1 1 (Entry 0%Z 0 kEmpty));
    [vm_compute; reflexivity|vm_compute; reflexivity|discriminate|vm_compute; lia].
Defined.

Lemma remove_then_insert_count_witness :
  remove table_7 7%Z = Ok (true, table_7_removed)
  ∧ convert 7 = 7%Z
  ∧ current_size table_7 + 1 ≤ length (array table_7) / 2
  ∧ ∃ pos, find_position table_7 7%Z = Ok pos ∧
      insert 1 table_7_removed 7%Z 7
      = Ok (true, {| array := <[pos:=entry_ctor 7%Z 7 kActive]> (array table_7);
                     current_size := current_size table_7 + 1 |}) ∧
      occupied (<[pos:=entry_ctor 7%Z 7 kActive]> (array table_7))
      = occupied (array table_7).
Proof.
  split; [vm_compute; reflexivity|]. split; [reflexivity|]. split; [vm_compute; lia|].
  apply (remove_then_insert_count 0 table_7 7%Z 7 table_7_removed);
    [vm_compute; reflexivity|reflexivity|vm_compute; lia].
Defined.

Lemma set_lookup_complete_witness :
  reachable_set table_own_5 ∧ stored table_own_5 3%Z 3
  ∧ contains table_own_5 3%Z = Ok true ∧ get_value table_own_5 3%Z = Ok 3
  ∧ contains_key table_own_5 3 = Ok true ∧ get_key table_own_5 3 = Ok 3%Z.
Proof.
  assert (stored table_own_5 3%Z 3) as Hst by (exists 3; vm_compute; reflexivity).
  split; [exact table_own_5_reachable_set|]. split; [exact Hst|].
  apply (set_lookup_complete table_own_5 3%Z 3 table_own_5_reachable_set Hst).
Defined.

Lemma set_insert_then_lookup_witness :
  reachable_set table_7 ∧ convert 5 = 5%Z
  ∧ current_size table_7 + 1 ≤ length (array table_7) / 2
  ∧ insert 10 table_7 5%Z 5 = Ok (true, table_7_5)
  ∧ contains table_7_5 5%Z = Ok true
  ∧ get_value table_7_5 5%Z = Ok 5.
Proof.
  split; [exact table_7_reachable_set|]. split; [reflexivity|].
  split; [vm_compute; lia|]. split; [vm_compute; reflexivity|].
  apply (set_insert_then_lookup 10 table_7 5%Z 5 true table_7_5
           table_7_reachable_set); [reflexivity|vm_compute; lia|vm_compute; reflexivity].
Defined.

Lemma set_insert_keeps_entries_witness :
  reachable_set table_7 ∧ convert 5 = 5%Z
  ∧ current_size table_7 + 1 ≤ length (array table_7) / 2
  ∧ insert 10 table_7 5%Z 5 = Ok (true, table_7_5)
  ∧ stored table_7 7%Z 7
  ∧ stored table_7_5 7%Z 7 ∧ contains table_7_5 7%Z = Ok true
  ∧ get_value table_7_5 7%Z = Ok 7.
Proof.
  assert (stored table_7 7%Z 7) as Hst by (exists 7; vm_compute; reflexivity).
  split; [exact table_7_reachable_set|]. split; [reflexivity|].
  split; [vm_compute; lia|]. split; [vm_compute; reflexivity|]. split; [exact Hst|].
  apply (set_insert_keeps_entries 10 table_7 5%Z 5 true table_7_5 7%Z 7
           table_7_reachable_set);
    [reflexivity|vm_compute; lia|vm_compute; reflexivity|exact Hst].
Defined.

Lemma set_insert_adds_only_its_value_witness :
  reachable_set table_7 ∧ convert 5 = 5%Z
  ∧ current_size table_7 + 1 ≤ length (array table_7) / 2
  ∧ insert 10 table_7 5%Z 5 = Ok (true, table_7_5)
  ∧ contains table_7_5 7%Z = Ok true
  ∧ (7%Z = 5%Z ∨ contains table_7 7%Z = Ok true).
Proof.
  split; [exact table_7_reachable_set|]. split; [reflexivity|].
  split; [vm_compute; lia|]. split; [vm_compute; reflexivity|].
  split; [vm_compute; reflexivity|].
  apply (set_insert_adds_only_its_value 10 table_7 5%Z 5 true table_7_5 7%Z
           table_7_reachable_set);
    [reflexivity|vm_compute; lia|vm_compute; reflexivity|vm_compute; reflexivity].
Defined.

Lemma set_insert_twice_witness :
  reachable_set table_7 ∧ convert 5 = 5%Z
  ∧ current_size table_7 + 1 ≤ length (array table_7) / 2
  ∧ insert 10 table_7 5%Z 5 = Ok (true, table_7_5)
  ∧ insert 1 table_7_5 5%Z 5 = Ok (false, table_7_5).
Proof.
  split; [exact table_7_reachable_set|]. split; [reflexivity|].
  split; [vm_compute; lia|]. split; [vm_compute; reflexivity|].
  apply (set_insert_twice 10 0 table_7 5%Z 5 true table_7_5
           table_7_reachable_set); [reflexivity|vm_compute; lia|vm_compute; reflexivity].
Defined.

Lemma set_values_distinct_witness :
  reachable_set table_own_5
  ∧ array table_own_5 !! 3 = Some (Entry 3%Z 3 kActive)
  ∧ 3 = 3.
Proof.
  split; [exact table_own_5_reachable_set|]. split; [vm_compute; reflexivity|].
  apply (set_values_distinct table_own_5 3 3 (Entry 3%Z 3 kActive) (Entry 3%Z 3 kActive)
           table_own_5_reachable_set);
    [vm_compute; reflexivity|vm_compute; reflexivity|reflexivity..].
Defined.

Lemma set_remove_stored_witness :
  reachable_set table_own_5
  ∧ remove table_own_5 2%Z = Ok (true, table_own_5_removed)
  ∧ (stored table_own_5_removed 3%Z 3 ↔ stored table_own_5 3%Z 3 ∧ 3%Z ≠ 2%Z).
Proof.
  split; [exact table_own_5_reachable_set|]. split; [vm_compute; reflexivity|].
  apply (set_remove_stored table_own_5 2%Z true table_own_5_removed 3%Z 3
           table_own_5_reachable_set). vm_compute. reflexivity.
Defined.
